(** * reearthx: document collection facade, pagination model and the
      in-memory user repository

    A shallow embedding of

      - [mongox.Collection]: [Find], [FindOne], [SaveAll] and [wrapError];
      - [usecasex]: [CursorPagination], [OffsetPagination], [Pagination],
        the two [Wrap] methods and [Clone];
      - [accountmemory.User]: the in-memory implementation of
        [accountrepo.User].

    Go's [error] interface value is an [option error]: [None] is [nil].
    Pointers are locations of a typed heap, [None] being the nil pointer.
    Calls into the driver and into a [Consumer] are modelled by explicit
    state passing, with the calls that were made recorded in order. *)

From Stdlib Require Import ZArith List.
From stdpp Require Import base option list strings gmap fin_maps.

Local Open Scope string_scope.
Local Open Scope list_scope.

(* ===================================================================== *)
(** ** Errors *)
(* ===================================================================== *)

Module Rerror.

(** The error values that occur in the modelled packages.  [Wrapf] is an
    error built with [fmt.Errorf] and the [%w] verb: it has a cause that
    [errors.Is] looks through.  [DriverError] is a failure reported by the
    store's driver; [conflict] says whether it carries the store's
    transaction-conflict marker. *)
Inductive error : Type :=
  | io_EOF
  | mongo_ErrNilDocument
  | mongo_ErrNoDocuments
  | ErrNotFound
  | ErrInvalidParams
  | ErrTransaction
  | ErrDuplicatedUser
  | errors_New (msg : string)
  | DriverError (conflict : bool) (msg : string)
  | Wrapf (msg : string) (cause : error)
  | ErrInternalBy (cause : error).

#[global] Instance error_eq_dec : EqDecision error.
Proof. solve_decision. Defined.

(** [errors.Is(err, target)] for a non-nil [err]: walks the chain of causes
    and compares each link with [target].  Modelled from the spec:
    [rerror.ErrInternalBy] is not among the sources; the spec has Internal
    "wrapped with the original cause retained", so its cause is a link of
    the chain, as the cause of an error built with [%w] is. *)
Fixpoint errors_Is (err target : error) : bool :=
  if decide (err = target) then true
  else match err with
       | Wrapf _ cause => errors_Is cause target
       | ErrInternalBy cause => errors_Is cause target
       | _ => false
       end.

(** [rerror.ErrIfNil(v, err)]. Modelled from the spec: the helper is not
    among the sources; a lookup "with zero matches" raises the given error,
    a match is returned with a nil error. *)
Definition ErrIfNil {A : Type} (v : option A) (err : error)
  : option A * option error :=
  match v with
  | None => (None, Some err)
  | Some a => (Some a, None)
  end.

End Rerror.

Export Rerror.

(* ===================================================================== *)
(** ** mongox: the document collection *)
(* ===================================================================== *)

Module Mongox.

(** [bson.Raw]: the bytes of one document. A nil [bson.Raw] is [None]. *)
Definition Raw : Type := list Byte.byte.

Definition idKey : string := "id".

(** [bson.M] as far as the collection builds it: an ordered list of
    key/value pairs with string values. *)
Definition bson_M : Type := list (string * string).

(** Modelled from the spec: [IsTransactionError] is not among the sources.
    A transaction conflict is "detected via store-specific conflict
    markers", which only a failure coming from the driver carries. *)
Definition IsTransactionError (err : error) : bool :=
  match err with
  | DriverError conflict _ => conflict
  | _ => false
  end.

Definition wrapError (err : error) : error :=
  if IsTransactionError err then ErrTransaction else ErrInternalBy err.

(** *** The driver's cursor *)

(** One round of [cursor.Next(ctx)]: what [Next] returned, what
    [cursor.Err()] says afterwards, and [cursor.Current]. *)
Record CursorStep : Type := {
  next : bool;
  cur_err : option error;
  current : Raw
}.

(** A cursor is the list of rounds it still has to answer; once the list is
    used up [Next] returns false and [Err] returns nil. *)
Definition Cursor : Type := list CursorStep.

(** What [client.Find] returns: an error or an open cursor. *)
Inductive FindResponse : Type :=
  | FindFailed (err : error)
  | FindCursor (cursor : Cursor).

(** What [client.FindOne(...).DecodeBytes()] returns. *)
Inductive FindOneResponse : Type :=
  | DecodeFailed (err : error)
  | Decoded (raw : Raw).

(** *** Consumers *)

(** One call of [consumer.Consume]: the argument and the error returned. *)
Definition Call : Type := option Raw * option error.

(** What a run of [Find] or [FindOne] leaves behind: the error returned to
    the caller, the consumer's state, the [Consume] calls in the order they
    were made, and whether the deferred [cursor.Close] ran. *)
Record Run (S : Type) : Type := {
  result : option error;
  final : S;
  calls : list Call;
  closed : bool
}.
Arguments result {S}.
Arguments final {S}.
Arguments calls {S}.
Arguments closed {S}.

(** The test [err != nil && !errors.Is(err, io.EOF)] that guards three of
    the returns below: the error when the test holds, nil otherwise. *)
Definition notEOF (r : option error) : option error :=
  match r with
  | Some err => if negb (errors_Is err io_EOF) then Some err else None
  | None => None
  end.

Section Consumer.

(** A [Consumer] is an object with private state [S] and the method
    [Consume(raw) error]. *)
Variable S : Type.
Variable Consume : S -> option Raw -> S * option error.

(** Lines 52-57: the call [consumer.Consume(nil)] made once [Next] has
    returned false, and the [break] out of the loop. *)
Definition Find_terminal (s : S) : option error * S * list Call :=
  let '(s', r) := Consume s None in
  (notEOF r, s', [(None, r)]).

(** The [for] loop of [Find] (lines 46-63), by recursion on the rounds the
    cursor still answers.  Returns the error, the consumer's state and
    the calls made from here on. *)
Fixpoint Find_loop (cursor : Cursor) (s : S)
  : option error * S * list Call :=
  match cursor with
  | [] => Find_terminal s
  | step :: rest =>
      match notEOF (cur_err step) with
      | Some err => (Some (wrapError err), s, [])
      | None =>
          if negb (next step) then Find_terminal s
          else
            let '(s', r) := Consume s (Some (current step)) in
            match r with
            | Some err => (Some err, s', [(Some (current step), r)])
            | None =>
                let '(res, s'', cs) := Find_loop rest s' in
                (res, s'', (Some (current step), r) :: cs)
            end
      end
  end.

Definition Find (resp : FindResponse) (s : S) : Run S :=
  match resp with
  | FindFailed err =>
      if errors_Is err mongo_ErrNilDocument || errors_Is err mongo_ErrNoDocuments
      then {| result := Some ErrNotFound; final := s; calls := []; closed := false |}
      else {| result := Some (wrapError err); final := s; calls := []; closed := false |}
  | FindCursor cursor =>
      let '(res, s', cs) := Find_loop cursor s in
      {| result := res; final := s'; calls := cs; closed := true |}
  end.

(** [FindOne] opens no cursor, so [closed] stays false. *)
Definition FindOne (resp : FindOneResponse) (s : S) : Run S :=
  match resp with
  | DecodeFailed err =>
      if errors_Is err mongo_ErrNilDocument || errors_Is err mongo_ErrNoDocuments
      then {| result := Some ErrNotFound; final := s; calls := []; closed := false |}
      else {| result := Some (wrapError err); final := s; calls := []; closed := false |}
  | Decoded raw =>
      let '(s', r) := Consume s (Some raw) in
      {| result := notEOF r; final := s'; calls := [(Some raw, r)]; closed := false |}
  end.

End Consumer.

Arguments Find_terminal {S}.
Arguments Find_loop {S}.
Arguments Find {S}.
Arguments FindOne {S}.

(** The cursor runs dry after handing out the documents [ds]: every round
    passes the error test of line 48, the rounds that deliver a document
    answer [Next] with true, and then either a round answers it with false
    or the cursor has no round left. *)
Inductive Exhausts : Cursor -> list Raw -> Prop :=
  | Exhausts_end : Exhausts [] []
  | Exhausts_stop step rest :
      notEOF (cur_err step) = None ->
      next step = false ->
      Exhausts (step :: rest) []
  | Exhausts_doc step rest ds :
      notEOF (cur_err step) = None ->
      next step = true ->
      Exhausts rest ds ->
      Exhausts (step :: rest) (current step :: ds).

(** The round of a cursor that delivers the document [d]. *)
Definition doc (d : Raw) : CursorStep :=
  {| next := true; cur_err := None; current := d |}.

(** Two documents for the examples. *)
Definition row1 : Raw := [Byte.x01].
Definition row2 : Raw := [Byte.x02].

(** A consumer for the examples: it keeps the rows it was given, asks to
    stop with [io.EOF] once it holds [limit] of them, and answers the
    terminal call with [io.EOF]. *)
Definition collect (limit : nat) (rows : list Raw) (raw : option Raw)
  : list Raw * option error :=
  match raw with
  | None => (rows, Some io_EOF)
  | Some d =>
      let rows' := rows ++ [d] in
      if (limit <=? length rows')%nat then (rows', Some io_EOF) else (rows', None)
  end.

(** *** Bulk writes *)

(** How a call ends: it returns an error value, or the runtime panics. *)
Inductive Outcome : Type :=
  | Returned (err : option error)
  | Panicked.

Section Documents.

(** The replacement documents handed to [SaveAll] ([any] in the source). *)
Variable Doc : Type.

(** [mongo.WriteModel] as [SaveAll] builds it:
    [NewReplaceOneModel().SetFilter(f).SetReplacement(u).SetUpsert(b)]. *)
Record ReplaceOneModel : Type := {
  Filter : bson_M;
  Replacement : Doc;
  Upsert : bool
}.

(** The driver as [SaveAll] sees it: the answer [BulkWrite] gives to a
    batch, and the batches submitted so far, oldest first. *)
Record Driver : Type := {
  BulkWrite : list ReplaceOneModel -> option error;
  submitted : list (list ReplaceOneModel)
}.

(** Lines 145-152: [for i, u := range updates { id := ids[i]; ... }].
    [None] is the index-out-of-range panic of [ids[i]]. *)
Fixpoint writeModels (ids : list string) (i : nat) (updates : list Doc)
  (acc : list ReplaceOneModel) : option (list ReplaceOneModel) :=
  match updates with
  | [] => Some acc
  | u :: updates' =>
      match ids !! i with
      | None => None
      | Some id =>
          writeModels ids (Datatypes.S i) updates'
            (acc ++ [{| Filter := [(idKey, id)]; Replacement := u; Upsert := true |}])
      end
  end.

Definition SaveAll (d : Driver) (ids : list string) (updates : list Doc)
  : Driver * Outcome :=
  if (length ids =? 0)%nat || (length updates =? 0)%nat then (d, Returned None)
  else if negb (length ids =? length updates)%nat
  then (d, Returned (Some (wrapError (errors_New "invalid save args"))))
  else
    match writeModels ids 0 updates [] with
    | None => (d, Panicked)
    | Some batch =>
        let d' := {| BulkWrite := BulkWrite d; submitted := submitted d ++ [batch] |} in
        match BulkWrite d batch with
        | Some err => (d', Returned (Some (wrapError err)))
        | None => (d', Returned None)
        end
    end.

End Documents.

Arguments Filter {Doc}.
Arguments Replacement {Doc}.
Arguments Upsert {Doc}.
Arguments BulkWrite {Doc}.
Arguments submitted {Doc}.
Arguments writeModels {Doc}.
Arguments SaveAll {Doc}.

(** A driver for the examples: its documents are strings, it accepts every
    batch and has seen none yet. *)
Definition idle : Driver string := {| BulkWrite := fun _ => None; submitted := [] |}.

(** *** Runs of a consumer *)

Section ConsumerRuns.

Variable S : Type.
Variable Consume : S -> option Raw -> S * option error.

(** The state of the consumer after [Consume] was called on the documents
    [ds], in order. *)
Fixpoint feed (s : S) (ds : list Raw) : S :=
  match ds with
  | [] => s
  | d :: ds' => feed (Consume s (Some d)).1 ds'
  end.

(** [Consume], called on the documents [ds] in order from the state [s],
    returns nil each time. *)
Fixpoint accepts (s : S) (ds : list Raw) : bool :=
  match ds with
  | [] => true
  | d :: ds' =>
      match (Consume s (Some d)).2 with
      | None => accepts (Consume s (Some d)).1 ds'
      | Some _ => false
      end
  end.

(** Makes the calls of a log again, from the state [s]: the state they
    leave, provided that each answer in the log is the answer [Consume]
    gives to the argument beside it, in the state the calls before it left. *)
Fixpoint replay (s : S) (cs : list Call) : option S :=
  match cs with
  | [] => Some s
  | (arg, r) :: cs' =>
      if decide ((Consume s arg).2 = r) then replay (Consume s arg).1 cs' else None
  end.

End ConsumerRuns.

Arguments feed {S}.
Arguments accepts {S}.
Arguments replay {S}.

(** The first rounds of the cursor deliver the documents [ds], one each;
    the rounds after them are left open. *)
Inductive Delivers : Cursor -> list Raw -> Prop :=
  | Delivers_none cursor : Delivers cursor []
  | Delivers_doc step rest ds :
      notEOF (cur_err step) = None ->
      next step = true ->
      Delivers rest ds ->
      Delivers (step :: rest) (current step :: ds).

(** *** Counting and deleting *)

(** [mongo.DeleteResult]. *)
Record DeleteResult : Type := {
  DeletedCount : Z
}.

(** [Count], from what [client.CountDocuments] returns. *)
Definition Count (resp : Z * option error) : Z * option error :=
  let '(count, err) := resp in
  match err with
  | Some e => (0%Z, Some (wrapError e))
  | None => (count, None)
  end.

(** [RemoveAll], from what [client.DeleteMany] returns. *)
Definition RemoveAll (resp : option DeleteResult * option error) : option error :=
  let '(_, err) := resp in
  match err with
  | Some e => Some (wrapError e)
  | None => None
  end.

(** [RemoveOne], from what [client.DeleteOne] returns: a result pointer,
    which may be nil, and an error. *)
Definition RemoveOne (resp : option DeleteResult * option error) : option error :=
  let '(res, err) := resp in
  match err with
  | Some e => Some (wrapError e)
  | None =>
      match res with
      | Some res' => if (DeletedCount res' =? 0)%Z then Some ErrNotFound else None
      | None => None
      end
  end.

(** *** Bulk updates *)

(** [type Update struct { Filter, Update any; ArrayFilters []any }]. *)
Module Update.
Record t (Any : Type) : Type := {
  Filter : Any;
  Update : Any;
  ArrayFilters : list Any
}.
Arguments Filter {Any}.
Arguments Update {Any}.
Arguments ArrayFilters {Any}.
End Update.

(** [mongo.UpdateManyModel] as [UpdateManyMany] builds it: the filter, the
    update document [bson.M{key: value}] and the array filters, which stay
    nil unless [SetArrayFilters] is called. *)
Module UpdateManyModel.
Record t (Any : Type) : Type := {
  Filter : Any;
  Update : string * Any;
  ArrayFilters : option (list Any)
}.
Arguments Filter {Any}.
Arguments Update {Any}.
Arguments ArrayFilters {Any}.
End UpdateManyModel.

Section Updates.

Variable Any : Type.

(** The driver as [UpdateManyMany] sees it. *)
Record UpdateDriver : Type := {
  UpdateBulkWrite : list (UpdateManyModel.t Any) -> option error;
  update_submitted : list (list (UpdateManyModel.t Any))
}.

(** Lines 180-187: the model built for one [Update]. *)
Definition updateManyModel (w : Update.t Any) : UpdateManyModel.t Any :=
  let wm :=
    {| UpdateManyModel.Filter := Update.Filter w;
       UpdateManyModel.Update := ("$set", Update.Update w);
       UpdateManyModel.ArrayFilters := None |} in
  if (0 <? length (Update.ArrayFilters w))%nat
  then {| UpdateManyModel.Filter := UpdateManyModel.Filter wm;
          UpdateManyModel.Update := UpdateManyModel.Update wm;
          UpdateManyModel.ArrayFilters := Some (Update.ArrayFilters w) |}
  else wm.

(** Lines 178-189: the loop that appends one model per update. *)
Fixpoint updateModels (updates : list (Update.t Any))
  (acc : list (UpdateManyModel.t Any)) : list (UpdateManyModel.t Any) :=
  match updates with
  | [] => acc
  | w :: updates' => updateModels updates' (acc ++ [updateManyModel w])
  end.

Definition UpdateManyMany (d : UpdateDriver) (updates : list (Update.t Any))
  : UpdateDriver * option error :=
  let batch := updateModels updates [] in
  let d' := {| UpdateBulkWrite := UpdateBulkWrite d;
               update_submitted := update_submitted d ++ [batch] |} in
  match UpdateBulkWrite d batch with
  | Some err => (d', Some (wrapError err))
  | None => (d', None)
  end.

End Updates.

Arguments UpdateBulkWrite {Any}.
Arguments update_submitted {Any}.
Arguments updateManyModel {Any}.
Arguments updateModels {Any}.
Arguments UpdateManyMany {Any}.

(** An update driver for the examples: it accepts every batch and has seen
    none yet. *)
Definition idle_updates : UpdateDriver string :=
  {| UpdateBulkWrite := fun _ => None; update_submitted := [] |}.

(** The rounds of a cursor that deliver a document each: they pass the
    error test of line 48 and answer [Next] with true. *)
Definition delivering (rounds : Cursor) : Prop :=
  Forall (fun step => notEOF (cur_err step) = None /\ next step = true) rounds.

(** A round of a cursor that fails with an error of the driver. *)
Definition broken : CursorStep :=
  {| next := false; cur_err := Some (DriverError false "connection reset"); current := [] |}.

End Mongox.

(* ===================================================================== *)
(** ** usecasex: the pagination model *)
(* ===================================================================== *)

Module Usecasex.

(** Addresses of heap cells. *)
Definition loc : Type := positive.

(** [CursorPagination]: its four fields are pointers ([*Cursor],
    [*int64]), kept here as the addresses they hold. *)
Module CursorPagination.
Record t : Type := {
  Before : option loc;
  After : option loc;
  First : option loc;
  Last : option loc
}.
End CursorPagination.

(** [OffsetPagination]: two [int64] held by value. *)
Module OffsetPagination.
Record t : Type := {
  Offset : Z;
  Limit : Z
}.
End OffsetPagination.

(** [Pagination]: a pointer to each kind of descriptor. *)
Module Pagination.
Record t : Type := {
  Cursor : option loc;
  Offset : option loc
}.
End Pagination.

(** The heap: one store per type of cell a pointer of the package can
    refer to. *)
Record Heap : Type := {
  cursorPaginations : gmap loc CursorPagination.t;
  offsetPaginations : gmap loc OffsetPagination.t;
  paginations : gmap loc Pagination.t
}.

(** [&v] for a value that escapes: a new cell, at an address not in use. *)
Definition alloc {T : Type} (store : gmap loc T) (v : T) : gmap loc T * loc :=
  let l := fresh (dom store) in (<[l := v]> store, l).

(** [util.CloneRef(r)]. Modelled from the spec: the helper is not among the
    sources; [Clone] "produces a new union with independently-owned copies
    of whichever descriptor is set", so a nil pointer stays nil and any
    other is answered by the address of a new cell holding a copy of the
    value pointed to.  [None] stands for a pointer to no cell, which no Go
    program can build. *)
Definition CloneRef {T : Type} (store : gmap loc T) (r : option loc)
  : option (gmap loc T * option loc) :=
  match r with
  | None => Some (store, None)
  | Some l =>
      match store !! l with
      | None => None
      | Some v => let '(store', l') := alloc store v in Some (store', Some l')
      end
  end.

(** [func (p CursorPagination) Wrap() *Pagination]: the receiver is a copy,
    and it is the copy's address that the new [Pagination] holds. *)
Definition CursorPagination_Wrap (h : Heap) (p : CursorPagination.t) : Heap * loc :=
  let '(cps, c) := alloc (cursorPaginations h) p in
  let '(pgs, l) :=
    alloc (paginations h) {| Pagination.Cursor := Some c; Pagination.Offset := None |} in
  ({| cursorPaginations := cps;
      offsetPaginations := offsetPaginations h;
      paginations := pgs |}, l).

Definition OffsetPagination_Wrap (h : Heap) (p : OffsetPagination.t) : Heap * loc :=
  let '(ops, o) := alloc (offsetPaginations h) p in
  let '(pgs, l) :=
    alloc (paginations h) {| Pagination.Cursor := None; Pagination.Offset := Some o |} in
  ({| cursorPaginations := cursorPaginations h;
      offsetPaginations := ops;
      paginations := pgs |}, l).

(** [func (p *Pagination) Clone() *Pagination]. *)
Definition Pagination_Clone (h : Heap) (p : option loc) : option (Heap * option loc) :=
  match p with
  | None => Some (h, None)
  | Some l =>
      pg ← paginations h !! l;
      '(cps, c) ← CloneRef (cursorPaginations h) (Pagination.Cursor pg);
      '(ops, o) ← CloneRef (offsetPaginations h) (Pagination.Offset pg);
      let '(pgs, l') :=
        alloc (paginations h) {| Pagination.Cursor := c; Pagination.Offset := o |} in
      Some ({| cursorPaginations := cps;
               offsetPaginations := ops;
               paginations := pgs |}, Some l')
  end.

(** *** Reading and writing through a [*Pagination] *)

(** The descriptor seen through a pointer field of a [Pagination]: absent
    for a nil pointer, the cell's value otherwise. [None] when the pointer
    refers to no cell. *)
Definition field_view {T : Type} (store : gmap loc T) (r : option loc)
  : option (option T) :=
  match r with
  | None => Some None
  | Some l => Some <$> store !! l
  end.

(** What a caller sees through [p]: the descriptor behind [p.Cursor] and
    the one behind [p.Offset]. *)
Definition deref (h : Heap) (p : loc)
  : option (option CursorPagination.t * option OffsetPagination.t) :=
  pg ← paginations h !! p;
  c ← field_view (cursorPaginations h) (Pagination.Cursor pg);
  o ← field_view (offsetPaginations h) (Pagination.Offset pg);
  Some (c, o).

(** The assignments [p.Cursor.F = v] and [p.Offset.F = v], one per field of
    the two descriptors. *)
Inductive Assign : Type :=
  | Cursor_Before (v : option loc)
  | Cursor_After (v : option loc)
  | Cursor_First (v : option loc)
  | Cursor_Last (v : option loc)
  | Offset_Offset (v : Z)
  | Offset_Limit (v : Z).

Definition assign_cursor (a : Assign) (d : CursorPagination.t)
  : option CursorPagination.t :=
  let '(CursorPagination.Build_t b af f l) := d in
  match a with
  | Cursor_Before v => Some (CursorPagination.Build_t v af f l)
  | Cursor_After v => Some (CursorPagination.Build_t b v f l)
  | Cursor_First v => Some (CursorPagination.Build_t b af v l)
  | Cursor_Last v => Some (CursorPagination.Build_t b af f v)
  | _ => None
  end.

Definition assign_offset (a : Assign) (d : OffsetPagination.t)
  : option OffsetPagination.t :=
  let '(OffsetPagination.Build_t o l) := d in
  match a with
  | Offset_Offset v => Some (OffsetPagination.Build_t v l)
  | Offset_Limit v => Some (OffsetPagination.Build_t o v)
  | _ => None
  end.

(** Runs one assignment through the pointer [p]. [None] is the panic of a
    nil dereference. *)
Definition assign (h : Heap) (p : loc) (a : Assign) : option Heap :=
  pg ← paginations h !! p;
  match a with
  | Cursor_Before _ | Cursor_After _ | Cursor_First _ | Cursor_Last _ =>
      l ← Pagination.Cursor pg;
      d ← cursorPaginations h !! l;
      d' ← assign_cursor a d;
      Some {| cursorPaginations := <[l := d']> (cursorPaginations h);
              offsetPaginations := offsetPaginations h;
              paginations := paginations h |}
  | Offset_Offset _ | Offset_Limit _ =>
      l ← Pagination.Offset pg;
      d ← offsetPaginations h !! l;
      d' ← assign_offset a d;
      Some {| cursorPaginations := cursorPaginations h;
              offsetPaginations := <[l := d']> (offsetPaginations h);
              paginations := paginations h |}
  end.

(** "Never both populated". *)
Definition exclusive (pg : Pagination.t) : bool :=
  negb (bool_decide (is_Some (Pagination.Cursor pg))
        && bool_decide (is_Some (Pagination.Offset pg))).

(** A heap for the examples: empty but for the [Pagination] that wrapping a
    cursor descriptor leaves, and the pointer to it. *)
Definition empty_heap : Heap :=
  {| cursorPaginations := ∅; offsetPaginations := ∅; paginations := ∅ |}.

Definition sample_cursor : CursorPagination.t :=
  {| CursorPagination.Before := None;
     CursorPagination.After := Some 7%positive;
     CursorPagination.First := Some 8%positive;
     CursorPagination.Last := None |}.

Definition sample_heap : Heap := (CursorPagination_Wrap empty_heap sample_cursor).1.

Definition sample_ptr : loc := (CursorPagination_Wrap empty_heap sample_cursor).2.

End Usecasex.

(* ===================================================================== *)
(** ** accountmemory: the in-memory user repository *)
(* ===================================================================== *)

Module Accountmemory.

(** The [user] and [accountdomain] packages are external collaborators of
    the repository; it uses them through this interface only. *)
Class Domain : Type := {
  UserID : Type;
  UserID_eq_dec :: EqDecision UserID;
  UserID_countable :: Countable UserID;
  User : Type;
  Auth : Type;
  PasswordReset_t : Type;
  Verification_t : Type;
  (** [u.ID()] *)
  ID : User -> UserID;
  (** [user.AuthFrom(sub)] *)
  AuthFrom : string -> Auth;
  (** [u.ContainAuth(a)] *)
  ContainAuth : User -> Auth -> bool;
  (** [u.Email()], [u.Name()] *)
  Email : User -> string;
  Name : User -> string;
  (** [u.PasswordReset()], a pointer that may be nil, and its [Token] *)
  PasswordReset : User -> option PasswordReset_t;
  Token : PasswordReset_t -> string;
  (** [u.Verification()], a pointer that may be nil, and its [Code()] *)
  Verification : User -> option Verification_t;
  Code : Verification_t -> string
}.

(** *** [util.SyncMap] *)

Section SyncMap.

Context {K : Type} `{Countable K} {V : Type}.

(** Modelled from the spec: [util.SyncMap] is not among the sources. It is
    "a concurrent associative map from identifier to domain value", and a
    find is "a linear predicate scan over the map's current snapshot": the
    first entry of the snapshot that the predicate accepts. *)
Definition SyncMap_Find (f : K -> V -> bool) (m : gmap K V) : option V :=
  snd <$> List.find (fun kv => f kv.1 kv.2) (map_to_list m).

Definition SyncMap_FindAll (f : K -> V -> bool) (m : gmap K V) : list V :=
  snd <$> List.filter (fun kv => f kv.1 kv.2) (map_to_list m).

Definition SyncMap_Load (k : K) (m : gmap K V) : option V := m !! k.

Definition SyncMap_Store (k : K) (v : V) (m : gmap K V) : gmap K V := <[k := v]> m.

Definition SyncMap_Delete (k : K) (m : gmap K V) : gmap K V := delete k m.

End SyncMap.

Section Repo.

Context `{Domain}.

(** [type User struct { data *util.SyncMap[...]; err error }]: the map and
    the fault that [SetUserError] injects. *)
Record Repo : Type := {
  data : gmap UserID User;
  err : option error
}.

Definition NewUser : Repo := {| data := ∅; err := None |}.

Definition NewUserWith (users : list User) : Repo :=
  {| data := fold_left (fun m u => SyncMap_Store (ID u) u m) users ∅; err := None |}.

Definition SetUserError (r : Repo) (e : option error) : Repo :=
  {| data := data r; err := e |}.

(** The closures handed to [r.data.Find], one per lookup. *)
Definition byID (v : UserID) (key : UserID) (value : User) : bool :=
  bool_decide (key = v).

Definition bySub (auth0sub : string) (key : UserID) (value : User) : bool :=
  ContainAuth value (AuthFrom auth0sub).

Definition byPasswordResetRequest (token : string) (key : UserID) (value : User) : bool :=
  match PasswordReset value with
  | Some pr => bool_decide (Token pr = token)
  | None => false
  end.

Definition byEmail (email : string) (key : UserID) (value : User) : bool :=
  bool_decide (Email value = email).

Definition byName (name : string) (key : UserID) (value : User) : bool :=
  bool_decide (Name value = name).

Definition byNameOrEmail (nameOrEmail : string) (key : UserID) (value : User) : bool :=
  bool_decide (Email value = nameOrEmail) || bool_decide (Name value = nameOrEmail).

Definition byVerification (code : string) (key : UserID) (value : User) : bool :=
  match Verification value with
  | Some v => bool_decide (Code v = code)
  | None => false
  end.

Definition FindByIDs (r : Repo) (ids : list UserID) : list User * option error :=
  match err r with
  | Some e => ([], Some e)
  | None => (SyncMap_FindAll (fun key _ => bool_decide (key ∈ ids)) (data r), None)
  end.

Definition FindByID (r : Repo) (v : UserID) : option User * option error :=
  match err r with
  | Some e => (None, Some e)
  | None => ErrIfNil (SyncMap_Find (byID v) (data r)) ErrNotFound
  end.

Definition FindBySub (r : Repo) (auth0sub : string) : option User * option error :=
  match err r with
  | Some e => (None, Some e)
  | None =>
      if bool_decide (auth0sub = EmptyString) then (None, Some ErrInvalidParams)
      else ErrIfNil (SyncMap_Find (bySub auth0sub) (data r)) ErrNotFound
  end.

Definition FindByPasswordResetRequest (r : Repo) (token : string)
  : option User * option error :=
  match err r with
  | Some e => (None, Some e)
  | None =>
      if bool_decide (token = EmptyString) then (None, Some ErrInvalidParams)
      else ErrIfNil (SyncMap_Find (byPasswordResetRequest token) (data r)) ErrNotFound
  end.

Definition FindByEmail (r : Repo) (email : string) : option User * option error :=
  match err r with
  | Some e => (None, Some e)
  | None =>
      if bool_decide (email = EmptyString) then (None, Some ErrInvalidParams)
      else ErrIfNil (SyncMap_Find (byEmail email) (data r)) ErrNotFound
  end.

Definition FindByName (r : Repo) (name : string) : option User * option error :=
  match err r with
  | Some e => (None, Some e)
  | None =>
      if bool_decide (name = EmptyString) then (None, Some ErrInvalidParams)
      else ErrIfNil (SyncMap_Find (byName name) (data r)) ErrNotFound
  end.

Definition FindByNameOrEmail (r : Repo) (nameOrEmail : string)
  : option User * option error :=
  match err r with
  | Some e => (None, Some e)
  | None =>
      if bool_decide (nameOrEmail = EmptyString) then (None, Some ErrInvalidParams)
      else ErrIfNil (SyncMap_Find (byNameOrEmail nameOrEmail) (data r)) ErrNotFound
  end.

Definition FindByVerification (r : Repo) (code : string) : option User * option error :=
  match err r with
  | Some e => (None, Some e)
  | None =>
      if bool_decide (code = EmptyString) then (None, Some ErrInvalidParams)
      else ErrIfNil (SyncMap_Find (byVerification code) (data r)) ErrNotFound
  end.

(** The methods below change the map: they return the repository after the
    call next to their Go results. *)
Definition FindBySubOrCreate (r : Repo) (u : User) (sub : string)
  : Repo * (option User * option error) :=
  match err r with
  | Some e => (r, (None, Some e))
  | None =>
      match SyncMap_Find (bySub sub) (data r) with
      | None =>
          ({| data := SyncMap_Store (ID u) u (data r); err := err r |}, (Some u, None))
      | Some u2 => (r, (Some u2, None))
      end
  end.

Definition Create (r : Repo) (u : User) : Repo * option error :=
  match err r with
  | Some e => (r, Some e)
  | None =>
      match SyncMap_Load (ID u) (data r) with
      | None => ({| data := SyncMap_Store (ID u) u (data r); err := err r |}, None)
      | Some _ => (r, Some ErrDuplicatedUser)
      end
  end.

Definition Save (r : Repo) (u : User) : Repo * option error :=
  match err r with
  | Some e => (r, Some e)
  | None => ({| data := SyncMap_Store (ID u) u (data r); err := err r |}, None)
  end.

Definition Remove (r : Repo) (user : UserID) : Repo * option error :=
  match err r with
  | Some e => (r, Some e)
  | None => ({| data := SyncMap_Delete user (data r); err := err r |}, None)
  end.

(** The six lookups by attribute, for statements about all of them. *)
Inductive Lookup : Type :=
  | BySub
  | ByEmail
  | ByName
  | ByNameOrEmail
  | ByVerification
  | ByPasswordResetRequest.

Definition lookup_call (l : Lookup) : Repo -> string -> option User * option error :=
  match l with
  | BySub => FindBySub
  | ByEmail => FindByEmail
  | ByName => FindByName
  | ByNameOrEmail => FindByNameOrEmail
  | ByVerification => FindByVerification
  | ByPasswordResetRequest => FindByPasswordResetRequest
  end.

Definition lookup_pred (l : Lookup) : string -> UserID -> User -> bool :=
  match l with
  | BySub => bySub
  | ByEmail => byEmail
  | ByName => byName
  | ByNameOrEmail => byNameOrEmail
  | ByVerification => byVerification
  | ByPasswordResetRequest => byPasswordResetRequest
  end.

(** No stored user is accepted by the predicate [f]. *)
Definition no_match (f : UserID -> User -> bool) (r : Repo) : Prop :=
  forall k v, data r !! k = Some v -> f k v = false.

(** Every user is stored under its own identifier. *)
Definition keyed (r : Repo) : Prop :=
  forall k v, data r !! k = Some v -> ID v = k.

(** The last user of a list that has the identifier [k], as
    [NewUserWith] goes through the list from its head. *)
Definition last_with_ID (k : UserID) (users : list User) : option User :=
  List.find (fun u => bool_decide (ID u = k)) (rev users).

End Repo.

(** *** A domain for the examples *)

(** A user as the examples need it: an identifier, the attributes the
    lookups read, and the subs of its auths. *)
Record SampleUser : Type := {
  su_id : string;
  su_name : string;
  su_email : string;
  su_auths : list string;
  su_reset : option string;
  su_verification : option string
}.

Definition sample_domain : Domain :=
  {| UserID := string;
     User := SampleUser;
     Auth := string;
     PasswordReset_t := string;
     Verification_t := string;
     ID := su_id;
     AuthFrom := fun sub => sub;
     ContainAuth := fun u a => bool_decide (a ∈ su_auths u);
     Email := su_email;
     Name := su_name;
     PasswordReset := su_reset;
     Token := fun t => t;
     Verification := su_verification;
     Code := fun c => c |}.

Definition alice : SampleUser :=
  {| su_id := "01"; su_name := "alice"; su_email := "alice@example.com";
     su_auths := ["sub-123"]; su_reset := None; su_verification := None |}.

(** A second record under the identifier of [alice]. *)
Definition alice2 : SampleUser :=
  {| su_id := "01"; su_name := "alice2"; su_email := "alice2@example.com";
     su_auths := ["sub-123"]; su_reset := None; su_verification := None |}.

(** A user whose auths do not hold the sub it is looked up by. *)
Definition bob : SampleUser :=
  {| su_id := "02"; su_name := "bob"; su_email := "bob@example.com";
     su_auths := []; su_reset := None; su_verification := None |}.

Definition carol : SampleUser :=
  {| su_id := "03"; su_name := "carol"; su_email := "carol@example.com";
     su_auths := []; su_reset := None; su_verification := None |}.

(** The error that the examples inject with [SetUserError]. *)
Definition fault : error := errors_New "injected".

(** A repository that holds [alice], an empty one, and the first after a
    fault was injected. *)
Definition alice_repo : @Repo sample_domain := @NewUserWith sample_domain [alice].

Definition empty_repo : @Repo sample_domain := @NewUser sample_domain.

Definition faulty_repo : @Repo sample_domain :=
  @SetUserError sample_domain alice_repo (Some fault).

End Accountmemory.

(* ===================================================================== *)
(** ** Properties of the document collection *)
(* ===================================================================== *)

Section FindFacts.

Import Mongox.

Context {S : Type} (Consume : S -> option Raw -> S * option error).

Lemma notEOF_case (r : option error) :
  notEOF r = match r with
             | Some e => if errors_Is e io_EOF then None else Some e
             | None => None
             end.
Proof. destruct r as [e|]; simpl; [destruct (errors_Is e io_EOF)|]; reflexivity. Qed.

(** The terminal call is the only call that [Find_terminal] makes. *)
Lemma Find_terminal_calls (s : S) :
  exists r, Find_terminal Consume s = (notEOF r, (Consume s None).1, [(None, r)]).
Proof.
  unfold Find_terminal. destruct (Consume s None) as [s' r]. eauto.
Qed.

(** A run over a cursor that runs dry after the documents [ds], with a
    consumer that takes them all: one call per document, in order, then the
    terminal call, whose answer decides the result. *)
Lemma Find_loop_exhausts (cursor : Cursor) (ds : list Raw) :
  Exhausts cursor ds ->
  forall s : S,
    accepts Consume s ds = true ->
    Find_loop Consume cursor s
    = (notEOF (Consume (feed Consume s ds) None).2,
       (Consume (feed Consume s ds) None).1,
       map (fun d => (Some d, None)) ds ++ [(None, (Consume (feed Consume s ds) None).2)]).
Proof.
  assert (Hterm : forall s : S,
             Find_terminal Consume s
             = (notEOF (Consume s None).2, (Consume s None).1, [(None, (Consume s None).2)])).
  { intros s. unfold Find_terminal. destruct (Consume s None). reflexivity. }
  induction 1 as [|step rest Herr Hnext|step rest ds Herr Hnext Hex IH]; intros s Hacc.
  - simpl. apply Hterm.
  - simpl. rewrite Herr, Hnext. simpl. apply Hterm.
  - simpl in Hacc |- *. rewrite Herr, Hnext. simpl.
    destruct (Consume s (Some (current step))) as [s1 [e|]]; simpl in Hacc |- *;
      [discriminate Hacc|].
    rewrite (IH s1 Hacc). reflexivity.
Qed.

(** A run over a cursor that delivers the documents [ds] and then [d],
    with a consumer that takes [ds] and answers [d] with an error: one call
    per document of [ds], the call on [d], and no call after it. *)
Lemma Find_loop_stops (ds : list Raw) (d : Raw) (s' : S) (e : error) :
  forall (cursor : Cursor) (s : S),
    Delivers cursor (ds ++ [d]) ->
    accepts Consume s ds = true ->
    Consume (feed Consume s ds) (Some d) = (s', Some e) ->
    Find_loop Consume cursor s
    = (Some e, s', map (fun d => (Some d, None)) ds ++ [(Some d, Some e)]).
Proof.
  induction ds as [|d0 ds IH]; intros cursor s Hdel Hacc Hcall; simpl in *.
  - inversion Hdel as [|step rest ds' Herr Hnext Hrest Hc Hd]; subst. simpl.
    rewrite Herr, Hnext. simpl. rewrite Hcall. reflexivity.
  - inversion Hdel as [|step rest ds' Herr Hnext Hrest Hc Hd]; subst. simpl.
    rewrite Herr, Hnext. simpl.
    destruct (Consume s (Some (current step))) as [s1 [e1|]]; simpl in Hacc, Hcall |- *;
      [discriminate Hacc|].
    rewrite (IH rest s1 Hrest Hacc Hcall). reflexivity.
Qed.

(** The log of the loop is the calls it made: every answer in it is the
    answer of [Consume] at the state the calls before it left, and the
    state returned is the one the last call left. *)
Lemma replay_call (s s1 : S) (arg : option Raw) (r : option error) (cs : list Call) :
  Consume s arg = (s1, r) ->
  replay Consume s ((arg, r) :: cs) = replay Consume s1 cs.
Proof.
  intros Hc.
  change (replay Consume s ((arg, r) :: cs))
    with (if decide ((Consume s arg).2 = r)
          then replay Consume (Consume s arg).1 cs else None).
  rewrite Hc. cbn [fst snd]. apply decide_True. reflexivity.
Qed.

Lemma Find_loop_replay (cursor : Cursor) :
  forall (s : S) res s' cs,
    Find_loop Consume cursor s = (res, s', cs) -> replay Consume s cs = Some s'.
Proof.
  assert (Hterm : forall (s : S) res s' cs,
             Find_terminal Consume s = (res, s', cs) -> replay Consume s cs = Some s').
  { intros s res s' cs Hrun. unfold Find_terminal in Hrun.
    destruct (Consume s None) as [s1 r] eqn:Hc. injection Hrun as _ <- <-.
    rewrite (replay_call _ _ _ _ _ Hc). reflexivity. }
  induction cursor as [|step rest IH]; intros s res s' cs Hrun.
  - simpl in Hrun. eauto.
  - simpl in Hrun.
    destruct (notEOF (cur_err step)) as [bad|].
    { injection Hrun as _ <- <-. reflexivity. }
    destruct (negb (next step)); [eauto|].
    destruct (Consume s (Some (current step))) as [s1 [e1|]] eqn:Hc.
    + injection Hrun as _ <- <-.
      rewrite (replay_call _ _ _ _ _ Hc). reflexivity.
    + destruct (Find_loop Consume rest s1) as [[res1 s2] cs1] eqn:Hrest.
      injection Hrun as _ <- <-.
      rewrite (replay_call _ _ _ _ _ Hc). exact (IH s1 res1 s2 cs1 Hrest).
Qed.

(** A [Consume] call that returns an error other than the sentinel is the
    last call of the loop, and its error is the loop's result. *)
Lemma Find_loop_aborts (cursor : Cursor) :
  forall (s : S) res s' cs,
    Find_loop Consume cursor s = (res, s', cs) ->
    forall pre arg e post,
      cs = pre ++ (arg, Some e) :: post ->
      errors_Is e io_EOF = false ->
      res = Some e /\ post = [].
Proof.
  assert (Hone : forall (c : Call) pre arg e post,
             [c] = pre ++ (arg, Some e) :: post ->
             pre = [] /\ post = [] /\ c = (arg, Some e)).
  { intros c [|x pre] arg e post Heq; simpl in Heq.
    - injection Heq as -> <-. auto.
    - injection Heq as _ Heq. destruct pre; discriminate Heq. }
  assert (Hterm : forall (s : S) res s' cs,
             Find_terminal Consume s = (res, s', cs) ->
             forall pre arg e post,
               cs = pre ++ (arg, Some e) :: post ->
               errors_Is e io_EOF = false ->
               res = Some e /\ post = []).
  { intros s res s' cs Hrun pre arg e post Hcs He.
    destruct (Find_terminal_calls s) as [r Hr]. rewrite Hr in Hrun.
    injection Hrun as <- _ <-.
    apply Hone in Hcs as (_ & -> & [= _ ->]).
    simpl. rewrite He. auto. }
  induction cursor as [|step rest IH]; intros s res s' cs Hrun pre arg e post Hcs He.
  - simpl in Hrun. eauto.
  - simpl in Hrun.
    destruct (notEOF (cur_err step)) as [bad|].
    { injection Hrun as _ _ <-. destruct pre; discriminate Hcs. }
    destruct (negb (next step)); [eauto|].
    destruct (Consume s (Some (current step))) as [s1 [e1|]].
    + injection Hrun as <- _ <-.
      apply Hone in Hcs as (_ & -> & [= _ ->]). auto.
    + destruct (Find_loop Consume rest s1) as [[res1 s2] cs1] eqn:Hrest.
      injection Hrun as <- _ <-.
      destruct pre as [|x pre]; simpl in Hcs; [discriminate Hcs|].
      injection Hcs as _ Hcs.
      exact (IH s1 res1 s2 cs1 Hrest pre arg e post Hcs He).
Qed.

(** The deferred [cursor.Close] runs on every way out of [Find] once the
    cursor is open. *)
Remark Find_closes_cursor (cursor : Cursor) (s : S) :
  closed (Find Consume (FindCursor cursor) s) = true.
Proof.
  unfold Find. destruct (Find_loop Consume cursor s) as [[res s'] cs]. reflexivity.
Qed.

(** C1. The calls that [Find] records are the calls it makes: each
    recorded answer is the answer of [Consume] at the state the calls before
    it left, and the state returned is the one the last call left.  When the
    cursor runs dry after the documents [ds] and [Consume] returns nil on
    each of them, the calls are one [Consume] per document, in order,
    followed by [Consume(nil)], which is thereby made exactly once, after
    all documents; [Find] returns nil when the answer of [Consume(nil)] is
    nil or the end-of-stream sentinel, and returns that answer otherwise.
    When [Consume] returns an error other than the sentinel on a document,
    [Find] returns that error and the call is the last one.  In any run, a
    call that returned an error other than the sentinel is the last call
    made, and [Find] returns that error. *)
Theorem Find_consumer_protocol (cursor : Cursor) (s : S) :
  let run := Find Consume (FindCursor cursor) s in
  replay Consume s (calls run) = Some (final run)
  /\ (forall ds,
        Exhausts cursor ds ->
        accepts Consume s ds = true ->
        let terminal := Consume (feed Consume s ds) None in
        calls run = map (fun d => (Some d, None)) ds ++ [(None, terminal.2)]
        /\ length (filter (fun c : Call => c.1 = None) (calls run)) = 1
        /\ final run = terminal.1
        /\ result run = match terminal.2 with
                        | Some e => if errors_Is e io_EOF then None else Some e
                        | None => None
                        end)
  /\ (forall ds d s' e,
        Delivers cursor (ds ++ [d]) ->
        accepts Consume s ds = true ->
        Consume (feed Consume s ds) (Some d) = (s', Some e) ->
        errors_Is e io_EOF = false ->
        result run = Some e
        /\ calls run = map (fun d => (Some d, None)) ds ++ [(Some d, Some e)]
        /\ final run = s')
  /\ (forall pre arg e post,
         calls run = pre ++ (arg, Some e) :: post ->
         errors_Is e io_EOF = false ->
         result run = Some e /\ post = []).
Proof.
  intros run. subst run. unfold Find.
  destruct (Find_loop Consume cursor s) as [[res s'] cs] eqn:Hrun. simpl.
  split; [exact (Find_loop_replay cursor s res s' cs Hrun)|]. split; [|split].
  - intros ds Hex Hacc.
    rewrite (Find_loop_exhausts cursor ds Hex s Hacc) in Hrun.
    injection Hrun as <- <- <-. repeat split.
    + rewrite filter_app, length_app.
      replace (filter (fun c : Call => c.1 = None)
                 (map (fun d : Raw => (Some d, None : option error)) ds))
        with (@nil Call).
      * reflexivity.
      * clear. induction ds as [|d ds IH]; [reflexivity|].
        simpl. rewrite filter_cons_False; [exact IH|]. simpl. discriminate.
    + apply notEOF_case.
  - intros ds d s1 e Hdel Hacc Hcall _.
    rewrite (Find_loop_stops ds d s1 e cursor s Hdel Hacc Hcall) in Hrun.
    injection Hrun as <- <- <-. auto.
  - intros pre arg e post Hcs He.
    exact (Find_loop_aborts cursor s res s' cs Hrun pre arg e post Hcs He).
Qed.

End FindFacts.

Section FindExamples.

Import Mongox.

(** C1, on a cursor with two documents and a consumer that takes both and
    answers the terminal call with [io.EOF]: three calls, the last one with
    the answer of the consumer, the rows kept, and a nil result. *)
Lemma Find_consumer_protocol_witness :
  calls (Find (collect 5) (FindCursor [doc row1; doc row2]) [])
  = [(Some row1, None); (Some row2, None); (None, (collect 5 [row1; row2] None).2)]
  /\ final (Find (collect 5) (FindCursor [doc row1; doc row2]) []) = [row1; row2]
  /\ result (Find (collect 5) (FindCursor [doc row1; doc row2]) []) = None.
Proof.
  destruct (Find_consumer_protocol (collect 5) [doc row1; doc row2] [])
    as (_ & Hnormal & _).
  destruct (Hnormal [row1; row2]) as (Hcalls & _ & Hfinal & Hres).
  - apply (Exhausts_doc (doc row1)); [reflexivity..|].
    apply (Exhausts_doc (doc row2)); [reflexivity..|].
    apply Exhausts_end.
  - reflexivity.
  - split; [exact Hcalls|]. split; [exact Hfinal|exact Hres].
Defined.

End FindExamples.

Section FindSentinel.

Import Mongox.

Context {S : Type} (Consume : S -> option Raw -> S * option error).

(** C2, the case the code misses. Whatever error the [Consume] call of line
    59 returns on a document, [Find] returns it, the end-of-stream sentinel
    included: line 59 lacks the test [!errors.Is(err, io.EOF)] that the
    calls of lines 53 and 74 are guarded by. *)
Theorem Find_document_call_returns_any_error
  (step : CursorStep) (rest : Cursor) (s s' : S) (e : error) :
  notEOF (cur_err step) = None ->
  next step = true ->
  Consume s (Some (current step)) = (s', Some e) ->
  result (Find Consume (FindCursor (step :: rest)) s) = Some e.
Proof.
  intros Herr Hnext Hcall. unfold Find. simpl.
  rewrite Herr, Hnext, Hcall. reflexivity.
Qed.

(** The sibling call in [FindOne] does what the claim says: the sentinel
    becomes nil, every other error is returned as it is. *)
Lemma FindOne_consumer_error (raw : Raw) (s s' : S) (e : error) :
  Consume s (Some raw) = (s', Some e) ->
  result (FindOne Consume (Decoded raw) s)
  = if errors_Is e io_EOF then None else Some e.
Proof.
  intros Hcall. unfold FindOne. rewrite Hcall. simpl.
  destruct (errors_Is e io_EOF); reflexivity.
Qed.

End FindSentinel.

(** C2 at the failing input: a consumer that stops after one row, on a
    cursor holding two documents. [Find] returns [io.EOF]. *)
Lemma Find_document_call_returns_any_error_witness :
  Mongox.result
    (Mongox.Find (Mongox.collect 1)
       (Mongox.FindCursor [Mongox.doc Mongox.row1; Mongox.doc Mongox.row2]) [])
  = Some io_EOF.
Proof.
  apply (Find_document_call_returns_any_error (Mongox.collect 1)
           (Mongox.doc Mongox.row1) [Mongox.doc Mongox.row2] [] [Mongox.row1] io_EOF);
    reflexivity.
Defined.

(** The same consumer on the same document makes [FindOne] succeed. *)
Example FindOne_swallows_sentinel :
  Mongox.result (Mongox.FindOne (Mongox.collect 1) (Mongox.Decoded Mongox.row1) []) = None.
Proof. reflexivity. Qed.

Section SaveAllFacts.

Import Mongox.

Context {Doc : Type}.

Lemma length_eqb_0 {A : Type} (l : list A) : (length l =? 0)%nat = true <-> l = [].
Proof.
  rewrite Nat.eqb_eq. split; [apply length_zero_iff_nil|intros ->; reflexivity].
Qed.

(** The loop of [SaveAll] never indexes [ids] out of range once the two
    lengths agree, and it builds one upsert per pair, in order. *)
Lemma writeModels_zip (ids : list string) (updates : list Doc) :
  forall (done_ids : list string) (acc : list (ReplaceOneModel Doc)),
    length ids = length updates ->
    writeModels (done_ids ++ ids) (length done_ids) updates acc
    = Some (acc ++ zip_with
                     (fun id u => {| Filter := [(idKey, id)]; Replacement := u; Upsert := true |})
                     ids updates).
Proof.
  revert ids. induction updates as [|u updates IH]; intros ids done_ids acc Hlen.
  - destruct ids; [|discriminate Hlen]. simpl. rewrite app_nil_r. reflexivity.
  - destruct ids as [|id ids]; [discriminate Hlen|]. simpl.
    rewrite lookup_app_r by lia. rewrite Nat.sub_diag. simpl.
    replace (done_ids ++ id :: ids) with ((done_ids ++ [id]) ++ ids)
      by (rewrite <- app_assoc; reflexivity).
    replace (Datatypes.S (length done_ids)) with (length (done_ids ++ [id]))
      by (rewrite length_app; simpl; lia).
    rewrite IH by (simpl in Hlen; lia).
    rewrite <- app_assoc. reflexivity.
Qed.

(** X4. When the lengths agree and are not zero, [SaveAll] submits exactly
    one batch, after the batches the driver had already seen: one upsert
    per pair, filtered by the identifier of the pair, in the order of the
    input.  It returns nil when the driver accepts the batch and the
    driver's error classified by [wrapError] otherwise. *)
Lemma SaveAll_submits_one_batch (d : Driver Doc) (ids : list string) (updates : list Doc) :
  ids <> [] ->
  length ids = length updates ->
  let batch :=
    zip_with (fun id u => {| Filter := [(idKey, id)]; Replacement := u; Upsert := true |})
      ids updates in
  submitted (SaveAll d ids updates).1 = submitted d ++ [batch]
  /\ (SaveAll d ids updates).2
     = Returned (match BulkWrite d batch with
                 | Some err => Some (wrapError err)
                 | None => None
                 end).
Proof.
  intros Hne Hlen batch. unfold SaveAll.
  destruct (length ids =? 0)%nat eqn:E1.
  { apply length_eqb_0 in E1. contradiction. }
  destruct (length updates =? 0)%nat eqn:E2.
  { apply length_eqb_0 in E2. subst updates. destruct ids; [contradiction|discriminate]. }
  simpl. rewrite Hlen, Nat.eqb_refl. simpl.
  pose proof (writeModels_zip ids updates [] [] Hlen) as Hw. simpl in Hw.
  rewrite Hw. fold batch.
  destruct (BulkWrite d batch); auto.
Qed.

(** C3. When [ids] and [updates] are both non-empty and differ in length,
    [SaveAll] returns the Internal error that wraps "invalid save args" and
    leaves the driver as it was: no batch is submitted. *)
Theorem SaveAll_length_mismatch (d : Driver Doc) (ids : list string) (updates : list Doc) :
  ids <> [] ->
  updates <> [] ->
  length ids <> length updates ->
  SaveAll d ids updates
  = (d, Returned (Some (ErrInternalBy (errors_New "invalid save args"))))
  /\ submitted (SaveAll d ids updates).1 = submitted d.
Proof.
  intros Hids Hupd Hlen.
  assert (Hrun : SaveAll d ids updates
                 = (d, Returned (Some (ErrInternalBy (errors_New "invalid save args"))))).
  { unfold SaveAll.
    destruct (length ids =? 0)%nat eqn:E1.
    { apply length_eqb_0 in E1. contradiction. }
    destruct (length updates =? 0)%nat eqn:E2.
    { apply length_eqb_0 in E2. contradiction. }
    simpl. apply Nat.eqb_neq in Hlen. rewrite Hlen. reflexivity. }
  rewrite Hrun. split; reflexivity.
Qed.

(** C4. When [ids] or [updates] is empty, whatever the other holds,
    [SaveAll] returns nil and leaves the driver as it was. *)
Theorem SaveAll_empty_is_noop (d : Driver Doc) (ids : list string) (updates : list Doc) :
  ids = [] \/ updates = [] ->
  SaveAll d ids updates = (d, Returned None)
  /\ submitted (SaveAll d ids updates).1 = submitted d.
Proof.
  intros Hempty.
  assert (Hrun : SaveAll d ids updates = (d, Returned None)).
  { unfold SaveAll.
    destruct Hempty as [-> | ->]; simpl; [reflexivity|].
    rewrite orb_true_r. reflexivity. }
  rewrite Hrun. split; reflexivity.
Qed.

End SaveAllFacts.

Section SaveAllExamples.

Import Mongox.

(** C3 on two identifiers and one replacement. *)
Lemma SaveAll_length_mismatch_witness :
  SaveAll idle ["a"; "b"] ["u1"]
  = (idle, Returned (Some (ErrInternalBy (errors_New "invalid save args"))))
  /\ submitted (SaveAll idle ["a"; "b"] ["u1"]).1 = [].
Proof.
  apply (SaveAll_length_mismatch idle ["a"; "b"] ["u1"]); simpl; [discriminate..|lia].
Defined.

(** C4 on no identifier and one replacement. *)
Lemma SaveAll_empty_is_noop_witness :
  SaveAll idle [] ["u1"] = (idle, Returned None)
  /\ submitted (SaveAll idle [] ["u1"]).1 = [].
Proof.
  apply (SaveAll_empty_is_noop idle [] ["u1"]). left. reflexivity.
Defined.

(** The scenario of the spec: two identifiers, two replacements, one batch
    of two upserts filtered by [{id: a}] and [{id: b}], in that order. *)
Example SaveAll_two_pairs :
  submitted (SaveAll idle ["a"; "b"] ["u1"; "u2"]).1
  = [[ {| Filter := [("id", "a")]; Replacement := "u1"; Upsert := true |};
       {| Filter := [("id", "b")]; Replacement := "u2"; Upsert := true |} ]].
Proof. reflexivity. Qed.

End SaveAllExamples.

(* ===================================================================== *)
(** ** Properties of the pagination model *)
(* ===================================================================== *)

Section HeapFacts.

Import Usecasex.

Context {T : Type}.

Lemma alloc_fresh (store : gmap loc T) (v : T) :
  store !! (alloc store v).2 = None.
Proof.
  unfold alloc. simpl. apply not_elem_of_dom. apply is_fresh.
Qed.

Lemma alloc_lookup_new (store : gmap loc T) (v : T) :
  (alloc store v).1 !! (alloc store v).2 = Some v.
Proof. unfold alloc. simpl. apply lookup_insert_eq. Qed.

Lemma alloc_lookup_old (store : gmap loc T) (v : T) (l : loc) :
  is_Some (store !! l) -> (alloc store v).1 !! l = store !! l.
Proof.
  intros Hl. unfold alloc. simpl. apply lookup_insert_ne.
  intros <-. pose proof (alloc_fresh store v) as Hf. unfold alloc in Hf. simpl in Hf.
  rewrite Hf in Hl. destruct Hl as [? [=]].
Qed.

(** What [CloneRef] returns on a pointer that is nil or refers to a cell:
    nil for nil, and otherwise an address that was not in use, at which the
    new store holds the value of the cell cloned; the cells that existed
    keep their values. *)
Lemma CloneRef_spec (store : gmap loc T) (r : option loc) :
  (forall l, r = Some l -> is_Some (store !! l)) ->
  exists store' r',
    CloneRef store r = Some (store', r')
    /\ (forall l, is_Some (store !! l) -> store' !! l = store !! l)
    /\ match r with
       | None => r' = None /\ store' = store
       | Some l =>
           exists l', r' = Some l' /\ store !! l' = None /\ store' !! l' = store !! l
       end.
Proof.
  intros Hr. unfold CloneRef. destruct r as [l|].
  - destruct (Hr l eq_refl) as [v Hv]. rewrite Hv.
    destruct (alloc store v) as [store' l'] eqn:Ha.
    exists store', (Some l'). split; [reflexivity|].
    pose proof (alloc_fresh store v) as Hf.
    pose proof (alloc_lookup_new store v) as Hn.
    pose proof (alloc_lookup_old store v) as Ho.
    rewrite Ha in Hf, Hn, Ho. cbn [fst snd] in Hf, Hn, Ho.
    split; [exact Ho|]. exists l'.
    split; [reflexivity|]. split; [exact Hf|]. congruence.
  - exists store, None. auto.
Qed.

End HeapFacts.

Section CloneFacts.

Import Usecasex.

Lemma deref_unfold (h : Heap) (p : loc) :
  deref h p
  = pg ← paginations h !! p;
    c ← field_view (cursorPaginations h) (Pagination.Cursor pg);
    o ← field_view (offsetPaginations h) (Pagination.Offset pg);
    Some (c, o).
Proof. reflexivity. Qed.

Lemma field_view_valid {T : Type} (store : gmap loc T) (r : option loc) :
  is_Some (field_view store r) -> forall l, r = Some l -> is_Some (store !! l).
Proof.
  intros [v Hv] l ->. simpl in Hv.
  destruct (store !! l); [eauto|discriminate Hv].
Qed.

(** A pointer that can be read through refers to a [Pagination] whose two
    pointer fields are nil or refer to cells. *)
Lemma deref_is_Some (h : Heap) (p : loc) :
  is_Some (deref h p) ->
  exists pg,
    paginations h !! p = Some pg
    /\ is_Some (field_view (cursorPaginations h) (Pagination.Cursor pg))
    /\ is_Some (field_view (offsetPaginations h) (Pagination.Offset pg)).
Proof.
  intros [v Hv]. rewrite deref_unfold in Hv.
  destruct (paginations h !! p) as [pg|]; [|discriminate Hv].
  exists pg. simpl in Hv.
  destruct (field_view (cursorPaginations h) (Pagination.Cursor pg)); [|discriminate Hv].
  destruct (field_view (offsetPaginations h) (Pagination.Offset pg)); [|discriminate Hv].
  eauto.
Qed.

(** [Clone] on a pointer that can be read through: the heap it leaves, and
    the pointer it returns. *)
Lemma Pagination_Clone_spec (h : Heap) (p : loc) :
  is_Some (deref h p) ->
  exists pg h' c pg',
    paginations h !! p = Some pg
    /\ Pagination_Clone h (Some p) = Some (h', Some c)
    /\ paginations h !! c = None
    /\ paginations h' = <[c := pg']> (paginations h)
    /\ (forall l, is_Some (cursorPaginations h !! l) ->
          cursorPaginations h' !! l = cursorPaginations h !! l)
    /\ (forall l, is_Some (offsetPaginations h !! l) ->
          offsetPaginations h' !! l = offsetPaginations h !! l)
    /\ match Pagination.Cursor pg with
       | None => Pagination.Cursor pg' = None
       | Some l =>
           exists l', Pagination.Cursor pg' = Some l'
                      /\ cursorPaginations h !! l' = None
                      /\ cursorPaginations h' !! l' = cursorPaginations h !! l
       end
    /\ match Pagination.Offset pg with
       | None => Pagination.Offset pg' = None
       | Some l =>
           exists l', Pagination.Offset pg' = Some l'
                      /\ offsetPaginations h !! l' = None
                      /\ offsetPaginations h' !! l' = offsetPaginations h !! l
       end.
Proof.
  intros Hp. destruct (deref_is_Some h p Hp) as (pg & Hpg & Hc & Ho).
  destruct (CloneRef_spec (cursorPaginations h) (Pagination.Cursor pg)
              (field_view_valid _ _ Hc)) as (cps & c' & Hcl & Hcold & Hcnew).
  destruct (CloneRef_spec (offsetPaginations h) (Pagination.Offset pg)
              (field_view_valid _ _ Ho)) as (ops & o' & Hol & Hoold & Honew).
  pose (pg' := {| Pagination.Cursor := c'; Pagination.Offset := o' |}).
  exists pg,
    {| cursorPaginations := cps; offsetPaginations := ops;
       paginations := (alloc (paginations h) pg').1 |},
    (alloc (paginations h) pg').2, pg'.
  split; [exact Hpg|]. split.
  { unfold Pagination_Clone. rewrite Hpg. simpl. rewrite Hcl. simpl. rewrite Hol.
    reflexivity. }
  split; [apply alloc_fresh|]. split; [reflexivity|].
  split; [exact Hcold|]. split; [exact Hoold|]. split.
  - destruct (Pagination.Cursor pg) as [l|].
    + destruct Hcnew as (l' & -> & Hfresh & Hcopy). exists l'. auto.
    + destruct Hcnew as [-> _]. reflexivity.
  - destruct (Pagination.Offset pg) as [l|].
    + destruct Honew as (l' & -> & Hfresh & Hcopy). exists l'. auto.
    + destruct Honew as [-> _]. reflexivity.
Qed.

End CloneFacts.

Section CloneIndependence.

Import Usecasex.

(** Reading through [p] looks at the cell of [p] and at the two cells its
    fields point to, and at nothing else. *)
Lemma deref_ext (h1 h2 : Heap) (p : loc) (pg : Pagination.t) :
  paginations h1 !! p = Some pg ->
  paginations h2 !! p = Some pg ->
  (forall l, Pagination.Cursor pg = Some l ->
     cursorPaginations h2 !! l = cursorPaginations h1 !! l) ->
  (forall l, Pagination.Offset pg = Some l ->
     offsetPaginations h2 !! l = offsetPaginations h1 !! l) ->
  deref h2 p = deref h1 p.
Proof.
  intros H1 H2 Hc Ho. unfold deref. rewrite H1, H2. simpl.
  destruct pg as [[lc|] [lo|]]; simpl in *;
    rewrite ?(Hc lc eq_refl), ?(Ho lo eq_refl); reflexivity.
Qed.

(** An assignment through [p] writes the cell one field of [p] points to,
    and no other. *)
Lemma assign_frame (h h'' : Heap) (p : loc) (a : Assign) :
  assign h p a = Some h'' ->
  exists pg,
    paginations h !! p = Some pg
    /\ paginations h'' = paginations h
    /\ (forall l, Pagination.Cursor pg <> Some l ->
          cursorPaginations h'' !! l = cursorPaginations h !! l)
    /\ (forall l, Pagination.Offset pg <> Some l ->
          offsetPaginations h'' !! l = offsetPaginations h !! l).
Proof.
  unfold assign. intros Ha.
  destruct (paginations h !! p) as [pg|]; [|discriminate Ha].
  exists pg. split; [reflexivity|]. simpl in Ha.
  destruct a;
    first
      [ destruct (Pagination.Cursor pg) as [l0|]; [|discriminate Ha]; simpl in Ha;
        destruct (cursorPaginations h !! l0) as [d|]; [|discriminate Ha]; simpl in Ha;
        destruct (assign_cursor _ d) as [d'|]; [|discriminate Ha]
      | destruct (Pagination.Offset pg) as [l0|]; [|discriminate Ha]; simpl in Ha;
        destruct (offsetPaginations h !! l0) as [d|]; [|discriminate Ha]; simpl in Ha;
        destruct (assign_offset _ d) as [d'|]; [|discriminate Ha] ];
    injection Ha as <-; simpl;
    (split; [reflexivity|]); split; intros l Hl; try reflexivity;
    apply lookup_insert_ne; congruence.
Qed.

(** C8. [Clone] of the nil pointer is nil and changes nothing.  [Clone] of a
    pointer [p] that can be read through returns a pointer [c] to a new
    [Pagination] that reads the same as [p]; afterwards no assignment to a
    field of the descriptors behind [c] changes what is read through [p],
    and none behind [p] changes what is read through [c]. *)
Theorem Pagination_Clone_independent (h : Heap) :
  Pagination_Clone h None = Some (h, None)
  /\ forall p,
       is_Some (deref h p) ->
       exists h' c,
         Pagination_Clone h (Some p) = Some (h', Some c)
         /\ c <> p
         /\ deref h' c = deref h p
         /\ deref h' p = deref h p
         /\ (forall a h'', assign h' c a = Some h'' -> deref h'' p = deref h' p)
         /\ (forall a h'', assign h' p a = Some h'' -> deref h'' c = deref h' c).
Proof.
  split; [reflexivity|]. intros p Hp.
  destruct (Pagination_Clone_spec h p Hp)
    as (pg & h' & c & pg' & Hpg & Hclone & Hfresh & Hpgs & Hcold & Hoold & Hcur & Hoff).
  destruct (deref_is_Some h p Hp) as (pg0 & Hpg0 & Hvc & Hvo).
  rewrite Hpg in Hpg0. injection Hpg0 as <-.
  pose proof (field_view_valid _ _ Hvc) as Hcv.
  pose proof (field_view_valid _ _ Hvo) as Hov.
  assert (Hne : c <> p) by (intros ->; rewrite Hpg in Hfresh; discriminate Hfresh).
  assert (Hp' : paginations h' !! p = Some pg).
  { rewrite Hpgs, lookup_insert_ne by exact Hne. exact Hpg. }
  assert (Hc' : paginations h' !! c = Some pg').
  { rewrite Hpgs. apply lookup_insert_eq. }
  (* the cells of [p] are not those of [c] *)
  assert (Hcsep : forall l, Pagination.Cursor pg = Some l -> Pagination.Cursor pg' <> Some l).
  { intros l Hl Hl'. rewrite Hl in Hcur. destruct Hcur as (l' & Hl'' & Hnone & _).
    rewrite Hl' in Hl''. injection Hl'' as ->.
    destruct (Hcv l' Hl) as [x Hx]. rewrite Hx in Hnone. discriminate Hnone. }
  assert (Hosep : forall l, Pagination.Offset pg = Some l -> Pagination.Offset pg' <> Some l).
  { intros l Hl Hl'. rewrite Hl in Hoff. destruct Hoff as (l' & Hl'' & Hnone & _).
    rewrite Hl' in Hl''. injection Hl'' as ->.
    destruct (Hov l' Hl) as [x Hx]. rewrite Hx in Hnone. discriminate Hnone. }
  assert (Hsame : deref h' p = deref h p).
  { apply (deref_ext h h' p pg Hpg Hp'); intros l Hl; [apply Hcold|apply Hoold]; auto. }
  exists h', c. repeat split; try assumption.
  - (* the clone reads as the original *)
    unfold deref. rewrite Hc', Hpg. simpl.
    assert (Hfc : field_view (cursorPaginations h') (Pagination.Cursor pg')
                  = field_view (cursorPaginations h) (Pagination.Cursor pg)).
    { destruct (Pagination.Cursor pg) as [lc|].
      - destruct Hcur as (l' & Hl' & _ & Hcopy). rewrite Hl'. simpl. rewrite Hcopy.
        reflexivity.
      - rewrite Hcur. reflexivity. }
    assert (Hfo : field_view (offsetPaginations h') (Pagination.Offset pg')
                  = field_view (offsetPaginations h) (Pagination.Offset pg)).
    { destruct (Pagination.Offset pg) as [lo|].
      - destruct Hoff as (l' & Hl' & _ & Hcopy). rewrite Hl'. simpl. rewrite Hcopy.
        reflexivity.
      - rewrite Hoff. reflexivity. }
    rewrite Hfc, Hfo. reflexivity.
  - (* writes through the clone *)
    intros a h'' Ha.
    destruct (assign_frame h' h'' c a Ha) as (pgc & Hpgc & Heq & Hcf & Hof).
    rewrite Hc' in Hpgc. injection Hpgc as <-.
    apply (deref_ext h' h'' p pg Hp'); [rewrite Heq; exact Hp'| |];
      intros l Hl; [apply Hcf|apply Hof]; auto.
  - (* writes through the original *)
    intros a h'' Ha.
    destruct (assign_frame h' h'' p a Ha) as (pgp & Hpgp & Heq & Hcf & Hof).
    rewrite Hp' in Hpgp. injection Hpgp as <-.
    apply (deref_ext h' h'' c pg' Hc'); [rewrite Heq; exact Hc'| |];
      intros l Hl; [apply Hcf|apply Hof]; intros Hl';
      [exact (Hcsep l Hl' Hl)|exact (Hosep l Hl' Hl)].
Qed.

End CloneIndependence.

Section WrapFacts.

Import Usecasex.

(** C8 on the sample heap: the clone is a new pointer that reads as the
    original does. *)
Lemma Pagination_Clone_independent_witness :
  exists h' c,
    Pagination_Clone sample_heap (Some sample_ptr) = Some (h', Some c)
    /\ c <> sample_ptr
    /\ deref h' c = Some (Some sample_cursor, None)
    /\ deref h' sample_ptr = Some (Some sample_cursor, None).
Proof.
  destruct (Pagination_Clone_independent sample_heap) as [_ Hclone].
  destruct (Hclone sample_ptr) as (h' & c & Hrun & Hne & Hc & Hp & _).
  - exists (Some sample_cursor, None). vm_compute. reflexivity.
  - exists h', c. rewrite Hc, Hp. repeat split; try assumption.
Defined.

(** On the sample heap, [clone.Cursor.First = nil] shows through the clone
    and not through the original. *)
Example Clone_then_assign :
  match Pagination_Clone sample_heap (Some sample_ptr) with
  | Some (h', Some c) =>
      match assign h' c (Cursor_First None) with
      | Some h'' =>
          deref h'' sample_ptr = Some (Some sample_cursor, None)
          /\ deref h'' c
             = Some (Some {| CursorPagination.Before := None;
                             CursorPagination.After := Some 7%positive;
                             CursorPagination.First := None;
                             CursorPagination.Last := None |}, None)
      | None => False
      end
  | _ => False
  end.
Proof. vm_compute. split; reflexivity. Qed.

Lemma exclusive_cases (pg : Pagination.t) :
  exclusive pg = true <-> Pagination.Cursor pg = None \/ Pagination.Offset pg = None.
Proof.
  unfold exclusive. destruct pg as [[c|] [o|]]; simpl; split; intros Hx;
    try reflexivity; try discriminate Hx; auto.
  destruct Hx as [Hx|Hx]; discriminate Hx.
Qed.

(** C9. The [Pagination] that [CursorPagination.Wrap] returns has its
    [Cursor] set to a copy of the receiver and its [Offset] nil; the one
    that [OffsetPagination.Wrap] returns has its [Offset] set to a copy of
    the receiver and its [Cursor] nil; and the clone of a [Pagination]
    whose two fields are not both set has not both set either. *)
Theorem Wrap_Clone_exclusive (h : Heap) :
  (forall d : CursorPagination.t,
      let (h', p) := CursorPagination_Wrap h d in
      exists c, paginations h' !! p
                = Some {| Pagination.Cursor := Some c; Pagination.Offset := None |}
                /\ deref h' p = Some (Some d, None))
  /\ (forall d : OffsetPagination.t,
         let (h', p) := OffsetPagination_Wrap h d in
         exists o, paginations h' !! p
                   = Some {| Pagination.Cursor := None; Pagination.Offset := Some o |}
                   /\ deref h' p = Some (None, Some d))
  /\ (forall p pg,
         paginations h !! p = Some pg ->
         is_Some (deref h p) ->
         exclusive pg = true ->
         exists h' c pg',
           Pagination_Clone h (Some p) = Some (h', Some c)
           /\ paginations h' !! c = Some pg'
           /\ exclusive pg' = true).
Proof.
  split; [|split].
  - intros d. unfold CursorPagination_Wrap.
    destruct (alloc (cursorPaginations h) d) as [cps c] eqn:Hc.
    destruct (alloc (paginations h) _) as [pgs p] eqn:Hp.
    pose proof (alloc_lookup_new (cursorPaginations h) d) as Hcn.
    pose proof (alloc_lookup_new (paginations h)
                  {| Pagination.Cursor := Some c; Pagination.Offset := None |}) as Hpn.
    rewrite Hc in Hcn. rewrite Hp in Hpn. simpl in Hcn, Hpn.
    exists c. split; [exact Hpn|].
    unfold deref. simpl. rewrite Hpn. simpl. rewrite Hcn. reflexivity.
  - intros d. unfold OffsetPagination_Wrap.
    destruct (alloc (offsetPaginations h) d) as [ops o] eqn:Ho.
    destruct (alloc (paginations h) _) as [pgs p] eqn:Hp.
    pose proof (alloc_lookup_new (offsetPaginations h) d) as Hon.
    pose proof (alloc_lookup_new (paginations h)
                  {| Pagination.Cursor := None; Pagination.Offset := Some o |}) as Hpn.
    rewrite Ho in Hon. rewrite Hp in Hpn. simpl in Hon, Hpn.
    exists o. split; [exact Hpn|].
    unfold deref. simpl. rewrite Hpn. simpl. rewrite Hon. reflexivity.
  - intros p pg Hpg Hp Hex.
    destruct (Pagination_Clone_spec h p Hp)
      as (pg0 & h' & c & pg' & Hpg0 & Hclone & _ & Hpgs & _ & _ & Hcur & Hoff).
    rewrite Hpg in Hpg0. injection Hpg0 as <-.
    exists h', c, pg'. split; [exact Hclone|]. split.
    + rewrite Hpgs. apply lookup_insert_eq.
    + apply exclusive_cases. apply exclusive_cases in Hex as [Hx|Hx].
      * rewrite Hx in Hcur. auto.
      * rewrite Hx in Hoff. auto.
Qed.

(** C9 on the sample heap: wrapping gives a [Pagination] with its [Offset]
    nil, and so has its clone. *)
Lemma Wrap_Clone_exclusive_witness :
  exists h' c pg',
    Pagination_Clone sample_heap (Some sample_ptr) = Some (h', Some c)
    /\ paginations h' !! c = Some pg'
    /\ exclusive pg' = true.
Proof.
  destruct (Wrap_Clone_exclusive sample_heap) as (_ & _ & Hclone).
  apply (Hclone sample_ptr
           {| Pagination.Cursor := Some 1%positive; Pagination.Offset := None |}).
  - vm_compute. reflexivity.
  - exists (Some sample_cursor, None). vm_compute. reflexivity.
  - reflexivity.
Defined.

End WrapFacts.

(* ===================================================================== *)
(** ** Properties of the in-memory user repository *)
(* ===================================================================== *)

Section SyncMapFacts.

Import Accountmemory.

Context {K : Type} `{Countable K} {V : Type}.

(** A find that answers finds a stored value that the predicate accepts. *)
Lemma SyncMap_Find_Some (f : K -> V -> bool) (m : gmap K V) (v : V) :
  SyncMap_Find f m = Some v -> exists k, m !! k = Some v /\ f k v = true.
Proof.
  unfold SyncMap_Find. intros Hfind.
  destruct (List.find _ (map_to_list m)) as [[k w]|] eqn:E; [|discriminate Hfind].
  injection Hfind as <-. apply find_some in E as [Hin Hf].
  exists k. split; [|exact Hf].
  apply elem_of_map_to_list. apply list_elem_of_In. exact Hin.
Qed.

(** A find answers nil exactly when the predicate accepts no entry. *)
Lemma SyncMap_Find_None (f : K -> V -> bool) (m : gmap K V) :
  SyncMap_Find f m = None <-> forall k v, m !! k = Some v -> f k v = false.
Proof.
  unfold SyncMap_Find. split.
  - intros Hfind k v Hkv.
    destruct (List.find _ (map_to_list m)) as [kv|] eqn:E; [discriminate Hfind|].
    apply (find_none _ _ E (k, v)).
    apply list_elem_of_In. apply elem_of_map_to_list. exact Hkv.
  - intros Hnone.
    destruct (List.find _ (map_to_list m)) as [[k w]|] eqn:E; [|reflexivity].
    apply find_some in E as [Hin Hf]. simpl in Hf.
    apply list_elem_of_In, elem_of_map_to_list in Hin.
    rewrite (Hnone k w Hin) in Hf. discriminate Hf.
Qed.

End SyncMapFacts.

Section RepoFacts.

Import Accountmemory.

Context `{Domain}.

Lemma no_match_Find (f : UserID -> User -> bool) (r : Repo) :
  no_match f r -> SyncMap_Find f (data r) = None.
Proof. intros Hno. apply SyncMap_Find_None. exact Hno. Qed.

(** C7. With no fault injected, each of the six lookups by attribute
    answers an empty argument with InvalidParams, and a non-empty argument
    that no stored user matches with NotFound. *)
Theorem lookup_errors (l : Lookup) (r : Repo) (s : string) :
  err r = None ->
  (s = EmptyString -> lookup_call l r s = (None, Some ErrInvalidParams))
  /\ (s <> EmptyString ->
      no_match (lookup_pred l s) r ->
      lookup_call l r s = (None, Some ErrNotFound)).
Proof.
  intros Herr. split.
  - intros ->. destruct l; simpl;
      unfold FindBySub, FindByEmail, FindByName, FindByNameOrEmail,
        FindByVerification, FindByPasswordResetRequest;
      rewrite Herr; reflexivity.
  - intros Hs Hno. apply no_match_Find in Hno.
    destruct l; simpl in *;
      unfold FindBySub, FindByEmail, FindByName, FindByNameOrEmail,
        FindByVerification, FindByPasswordResetRequest;
      rewrite Herr, (bool_decide_eq_false_2 _ Hs), Hno; reflexivity.
Qed.

(** C5, amended. With no fault injected and the identifier of [u] present,
    [Create] fails with [ErrDuplicatedUser] and leaves the repository as it
    was, and [Save] returns nil and leaves [u] stored under its
    identifier, the other entries being kept. *)
Theorem Create_duplicate_Save_overwrite (r : Repo) (u : User) :
  err r = None ->
  is_Some (data r !! ID u) ->
  Create r u = (r, Some ErrDuplicatedUser)
  /\ Save r u = ({| data := <[ID u := u]> (data r); err := None |}, None)
  /\ data (Save r u).1 !! ID u = Some u
  /\ forall k, k <> ID u -> data (Save r u).1 !! k = data r !! k.
Proof.
  intros Herr [v Hv].
  assert (Hsave : Save r u = ({| data := <[ID u := u]> (data r); err := None |}, None)).
  { unfold Save, SyncMap_Store. rewrite Herr. reflexivity. }
  split; [|split; [exact Hsave|rewrite Hsave; simpl; split]].
  - unfold Create, SyncMap_Load. rewrite Herr, Hv. reflexivity.
  - apply lookup_insert_eq.
  - intros k Hk. apply lookup_insert_ne. congruence.
Qed.

(** After [u] is stored in a repository where nobody matched [sub], and
    when [u] itself matches, the scan for [sub] finds [u]. *)
Lemma Find_after_Store (r : Repo) (u : User) (sub : string) :
  no_match (bySub sub) r ->
  ContainAuth u (AuthFrom sub) = true ->
  SyncMap_Find (bySub sub) (SyncMap_Store (ID u) u (data r)) = Some u.
Proof.
  intros Hno Hu. unfold SyncMap_Store.
  destruct (SyncMap_Find (bySub sub) (<[ID u := u]> (data r))) as [v|] eqn:E.
  - apply SyncMap_Find_Some in E as (k & Hk & Hf).
    apply lookup_insert_Some in Hk as [[_ ->]|[_ Hk]]; [reflexivity|].
    rewrite (Hno k v Hk) in Hf. discriminate Hf.
  - rewrite SyncMap_Find_None in E.
    specialize (E (ID u) u (lookup_insert_eq _ _ _)).
    unfold bySub in E. rewrite Hu in E. discriminate E.
Qed.

(** C6, amended. With no fault injected and no stored user matching [sub],
    [FindBySubOrCreate] stores [u] under its identifier and returns it; if
    the auths of [u] contain [sub], a second call with the same [sub]
    returns [u] for every candidate and leaves the repository as the first
    call left it. *)
Theorem FindBySubOrCreate_creates_once (r : Repo) (u : User) (sub : string) :
  err r = None ->
  no_match (bySub sub) r ->
  let r1 := (FindBySubOrCreate r u sub).1 in
  FindBySubOrCreate r u sub
  = ({| data := <[ID u := u]> (data r); err := None |}, (Some u, None))
  /\ data r1 !! ID u = Some u
  /\ (ContainAuth u (AuthFrom sub) = true ->
      forall u', FindBySubOrCreate r1 u' sub = (r1, (Some u, None))).
Proof.
  intros Herr Hno r1.
  assert (Hrun : FindBySubOrCreate r u sub
                 = ({| data := <[ID u := u]> (data r); err := None |}, (Some u, None))).
  { unfold FindBySubOrCreate. rewrite Herr, (no_match_Find _ _ Hno). reflexivity. }
  subst r1. rewrite Hrun. simpl.
  split; [reflexivity|]. split; [apply lookup_insert_eq|].
  intros Hu u'. unfold FindBySubOrCreate. simpl.
  pose proof (Find_after_Store r u sub Hno Hu) as Hfind.
  unfold SyncMap_Store in Hfind. rewrite Hfind. reflexivity.
Qed.

(** C10. With no fault injected, [FindBySubOrCreate] called with the empty
    sub returns a nil error, so never InvalidParams; when no stored user
    matches the empty sub it stores the candidate and returns it; whereas
    [FindBySub] answers the empty sub with InvalidParams. *)
Theorem FindBySubOrCreate_empty_sub (r : Repo) (u : User) :
  err r = None ->
  (FindBySubOrCreate r u EmptyString).2.2 = None
  /\ (FindBySubOrCreate r u EmptyString).2.2 <> Some ErrInvalidParams
  /\ (no_match (bySub EmptyString) r ->
      FindBySubOrCreate r u EmptyString
      = ({| data := <[ID u := u]> (data r); err := None |}, (Some u, None)))
  /\ FindBySub r EmptyString = (None, Some ErrInvalidParams).
Proof.
  intros Herr.
  assert (Hnil : (FindBySubOrCreate r u EmptyString).2.2 = None).
  { unfold FindBySubOrCreate. rewrite Herr.
    destruct (SyncMap_Find _ (data r)); reflexivity. }
  split; [exact Hnil|]. split; [rewrite Hnil; discriminate|]. split.
  - intros Hno. unfold FindBySubOrCreate.
    rewrite Herr, (no_match_Find _ _ Hno). reflexivity.
  - unfold FindBySub. rewrite Herr. reflexivity.
Qed.

End RepoFacts.

Section RepoExamples.

Import Accountmemory.

#[local] Existing Instance sample_domain.

Lemma alice_repo_data : data alice_repo = {[ "01" := alice ]}.
Proof. reflexivity. Qed.

Lemma alice_repo_no_match (f : string -> SampleUser -> bool) :
  f "01" alice = false -> no_match f alice_repo.
Proof.
  intros Hf k v Hkv. rewrite alice_repo_data in Hkv.
  apply lookup_singleton_Some in Hkv as [<- <-]. exact Hf.
Qed.

(** C7 on the lookup by email, in a repository that holds [alice]. *)
Lemma lookup_errors_witness :
  lookup_call ByEmail alice_repo EmptyString = (None, Some ErrInvalidParams)
  /\ lookup_call ByEmail alice_repo "bob@example.com" = (None, Some ErrNotFound).
Proof.
  split.
  - apply (lookup_errors ByEmail alice_repo EmptyString); reflexivity.
  - apply (lookup_errors ByEmail alice_repo "bob@example.com");
      [reflexivity|discriminate|].
    apply alice_repo_no_match. reflexivity.
Defined.

(** C5, amended, on a second record under the identifier of [alice]. *)
Lemma Create_duplicate_Save_overwrite_witness :
  Create alice_repo alice2 = (alice_repo, Some ErrDuplicatedUser)
  /\ (Save alice_repo alice2).2 = None
  /\ data (Save alice_repo alice2).1 !! "01" = Some alice2.
Proof.
  destruct (Create_duplicate_Save_overwrite alice_repo alice2)
    as (Hcreate & Hsave & Hstored & _).
  - reflexivity.
  - exists alice. reflexivity.
  - split; [exact Hcreate|]. split; [rewrite Hsave; reflexivity|exact Hstored].
Defined.

(** C5 as stated fails once a fault is injected: the identifier of
    [alice2] is present, yet [Create] returns the fault and not
    [ErrDuplicatedUser], and [Save] returns the fault and stores nothing. *)
Lemma Create_Save_fault_counterexample :
  data faulty_repo !! ID alice2 = Some alice
  /\ (Create faulty_repo alice2).2 = Some fault
  /\ (Create faulty_repo alice2).2 <> Some ErrDuplicatedUser
  /\ (Save faulty_repo alice2).2 = Some fault
  /\ data (Save faulty_repo alice2).1 !! ID alice2 = Some alice.
Proof.
  assert (Hc : Create faulty_repo alice2 = (faulty_repo, Some fault)) by reflexivity.
  assert (Hs : Save faulty_repo alice2 = (faulty_repo, Some fault)) by reflexivity.
  rewrite Hc, Hs. simpl.
  repeat split; try reflexivity. discriminate.
Qed.

(** C6, amended, on an empty repository: [alice], whose auths hold
    "sub-123", is stored by the first call and returned by the second, which
    does not store [carol]. *)
Lemma FindBySubOrCreate_creates_once_witness :
  (FindBySubOrCreate empty_repo alice "sub-123").2 = (Some alice, None)
  /\ FindBySubOrCreate (FindBySubOrCreate empty_repo alice "sub-123").1 carol "sub-123"
     = ((FindBySubOrCreate empty_repo alice "sub-123").1, (Some alice, None)).
Proof.
  destruct (FindBySubOrCreate_creates_once empty_repo alice "sub-123")
    as (Hfirst & _ & Hsecond).
  - reflexivity.
  - intros k v Hkv. simpl in Hkv. rewrite lookup_empty in Hkv. discriminate Hkv.
  - split; [rewrite Hfirst; reflexivity|].
    apply Hsecond. reflexivity.
Defined.

(** C6 as stated fails in two ways.  When the auths of the first candidate
    do not hold the sub, the second call finds nobody either: it stores the
    second candidate and returns it.  And once a fault is injected the
    first call returns the fault and stores nothing. *)
Lemma FindBySubOrCreate_counterexample :
  no_match (bySub "sub-123") empty_repo
  /\ (FindBySubOrCreate empty_repo bob "sub-123").2 = (Some bob, None)
  /\ (FindBySubOrCreate (FindBySubOrCreate empty_repo bob "sub-123").1 carol "sub-123").2
     = (Some carol, None)
  /\ data (FindBySubOrCreate (FindBySubOrCreate empty_repo bob "sub-123").1
             carol "sub-123").1 !! ID carol = Some carol
  /\ no_match (bySub "sub-999") faulty_repo
  /\ (FindBySubOrCreate faulty_repo bob "sub-999").2 = (None, Some fault)
  /\ data (FindBySubOrCreate faulty_repo bob "sub-999").1 !! ID bob = None.
Proof.
  split.
  { intros k v Hkv. simpl in Hkv. rewrite lookup_empty in Hkv. discriminate Hkv. }
  split; [reflexivity|]. split; [vm_compute; reflexivity|].
  split; [vm_compute; reflexivity|]. split.
  { apply alice_repo_no_match. reflexivity. }
  split; [reflexivity|]. vm_compute. reflexivity.
Qed.

(** C10 on a repository that holds [alice]: the empty sub matches nobody,
    [carol] is stored and returned, and [FindBySub] refuses the empty sub. *)
Lemma FindBySubOrCreate_empty_sub_witness :
  (FindBySubOrCreate alice_repo carol EmptyString).2 = (Some carol, None)
  /\ data (FindBySubOrCreate alice_repo carol EmptyString).1 !! "03" = Some carol
  /\ FindBySub alice_repo EmptyString = (None, Some ErrInvalidParams).
Proof.
  destruct (FindBySubOrCreate_empty_sub alice_repo carol) as (_ & _ & Hstore & Hfind).
  - reflexivity.
  - rewrite Hstore.
    + split; [reflexivity|]. split; [apply lookup_insert_eq|exact Hfind].
    + apply alice_repo_no_match. reflexivity.
Defined.

End RepoExamples.

(* ===================================================================== *)
(** ** Further properties of the document collection *)
(* ===================================================================== *)

Section FindRuns.

Import Mongox.

Context {S : Type} (Consume : S -> option Raw -> S * option error).

Lemma wrapError_cases (e : error) :
  wrapError e = ErrTransaction \/ wrapError e = ErrInternalBy e.
Proof. unfold wrapError. destruct (IsTransactionError e); auto. Qed.

(** Every call of the loop but the last one carries a document and
    returned nil. *)
Lemma Find_loop_calls_shape (cursor : Cursor) :
  forall (s : S) res s' cs,
    Find_loop Consume cursor s = (res, s', cs) ->
    forall pre c post,
      cs = pre ++ c :: post -> post <> [] -> exists d, c = (Some d, None).
Proof.
  assert (Hone : forall (x : Call) pre c post, [x] = pre ++ c :: post -> post = []).
  { intros x [|y pre] c post Heq; simpl in Heq.
    - injection Heq as _ <-. reflexivity.
    - injection Heq as _ Heq. destruct pre; discriminate Heq. }
  assert (Hterm : forall (s : S) res s' cs,
             Find_terminal Consume s = (res, s', cs) ->
             forall pre c post, cs = pre ++ c :: post -> post = []).
  { intros s res s' cs Hrun pre c post Hcs.
    destruct (Find_terminal_calls Consume s) as [r Hr]. rewrite Hr in Hrun.
    injection Hrun as _ _ <-. exact (Hone _ _ _ _ Hcs). }
  induction cursor as [|step rest IH]; intros s res s' cs Hrun pre c post Hcs Hpost.
  - simpl in Hrun. destruct Hpost. exact (Hterm _ _ _ _ Hrun _ _ _ Hcs).
  - simpl in Hrun.
    destruct (notEOF (cur_err step)) as [bad|].
    { injection Hrun as _ _ <-. destruct pre; discriminate Hcs. }
    destruct (negb (next step)).
    { destruct Hpost. exact (Hterm _ _ _ _ Hrun _ _ _ Hcs). }
    destruct (Consume s (Some (current step))) as [s1 [e1|]].
    + injection Hrun as _ _ <-. destruct Hpost. exact (Hone _ _ _ _ Hcs).
    + destruct (Find_loop Consume rest s1) as [[res1 s2] cs1] eqn:Hrest.
      injection Hrun as _ _ <-.
      destruct pre as [|x pre]; simpl in Hcs.
      * injection Hcs as <- _. eauto.
      * injection Hcs as _ Hcs.
        exact (IH s1 res1 s2 cs1 Hrest pre c post Hcs Hpost).
Qed.

(** X1. In every run of [Find], whatever the driver answers and whatever
    the consumer does, each [Consume] call that is followed by another one
    carried a document and returned nil: the terminal call [Consume(nil)]
    and a call that returns an error can only be the last call. *)
Theorem Find_calls_shape (resp : FindResponse) (s : S) :
  forall pre c post,
    calls (Find Consume resp s) = pre ++ c :: post ->
    post <> [] ->
    exists d, c = (Some d, None).
Proof.
  intros pre c post Hcs Hpost. destruct resp as [err|cursor].
  - unfold Find in Hcs.
    destruct (errors_Is err mongo_ErrNilDocument || errors_Is err mongo_ErrNoDocuments);
      simpl in Hcs; destruct pre; discriminate Hcs.
  - unfold Find in Hcs.
    destruct (Find_loop Consume cursor s) as [[res s'] cs] eqn:Hrun. simpl in Hcs.
    exact (Find_loop_calls_shape cursor s res s' cs Hrun pre c post Hcs Hpost).
Qed.

Lemma Find_loop_cursor_error (rounds : Cursor) (bad : CursorStep) (rest : Cursor)
  (err : error) :
  delivering rounds ->
  cur_err bad = Some err ->
  errors_Is err io_EOF = false ->
  forall (s : S) res s' cs,
    Find_loop Consume (rounds ++ bad :: rest) s = (res, s', cs) ->
    res <> None
    /\ (forall r, (None, r) ∉ cs)
    /\ ((forall d r, (Some d, r) ∈ cs -> r = None) ->
        res = Some (wrapError err)
        /\ cs = map (fun step => (Some (current step), None)) rounds).
Proof.
  intros Hrounds Hbad Herr.
  induction Hrounds as [|step rounds [Hok Hnext] _ IH]; intros s res s' cs Hrun.
  - simpl in Hrun. rewrite Hbad in Hrun. simpl in Hrun. rewrite Herr in Hrun.
    simpl in Hrun. injection Hrun as <- _ <-.
    split; [discriminate|]. split; [intros r Hin; inversion Hin|auto].
  - simpl in Hrun. rewrite Hok, Hnext in Hrun. simpl in Hrun.
    destruct (Consume s (Some (current step))) as [s1 [e1|]].
    + injection Hrun as <- _ <-.
      split; [discriminate|]. split.
      * intros r Hin. apply list_elem_of_singleton in Hin. discriminate Hin.
      * intros Hall. specialize (Hall (current step) (Some e1)).
        discriminate Hall. left.
    + destruct (Find_loop Consume (rounds ++ bad :: rest) s1) as [[res1 s2] cs1] eqn:Hrest.
      injection Hrun as <- _ <-.
      destruct (IH s1 res1 s2 cs1 Hrest) as (Hres & Hnil & Hall).
      split; [exact Hres|]. split.
      * intros r Hin. apply elem_of_cons in Hin as [Hin|Hin]; [discriminate Hin|].
        exact (Hnil r Hin).
      * intros Hok'. destruct Hall as [-> ->].
        { intros d r Hin. apply (Hok' d r). right. exact Hin. }
        split; reflexivity.
Qed.

(** X2. When the cursor of a [Find] reports an error other than the
    sentinel after rounds that delivered a document each, [Find] does not
    return nil and never makes the terminal call [Consume(nil)]; if no
    document call failed, it returns the driver's error classified by
    [wrapError], having called [Consume] once per delivered document. *)
Theorem Find_cursor_error (rounds : Cursor) (bad : CursorStep) (rest : Cursor)
  (err : error) (s : S) :
  delivering rounds ->
  cur_err bad = Some err ->
  errors_Is err io_EOF = false ->
  let run := Find Consume (FindCursor (rounds ++ bad :: rest)) s in
  result run <> None
  /\ (forall r, (None, r) ∉ calls run)
  /\ ((forall d r, (Some d, r) ∈ calls run -> r = None) ->
      result run = Some (wrapError err)
      /\ calls run = map (fun step => (Some (current step), None)) rounds).
Proof.
  intros Hrounds Hbad Herr run. subst run. unfold Find.
  destruct (Find_loop Consume (rounds ++ bad :: rest) s) as [[res s'] cs] eqn:Hrun.
  simpl. exact (Find_loop_cursor_error rounds bad rest err Hrounds Hbad Herr s res s' cs Hrun).
Qed.

(** An error that the loop returns is [wrapError] of something or was
    returned by one of the [Consume] calls. *)
Lemma Find_loop_error_origin (cursor : Cursor) :
  forall (s : S) res s' cs e,
    Find_loop Consume cursor s = (res, s', cs) ->
    res = Some e ->
    (exists cause, e = wrapError cause) \/ (exists arg, (arg, Some e) ∈ cs).
Proof.
  assert (Hterm : forall (s : S) res s' cs e,
             Find_terminal Consume s = (res, s', cs) ->
             res = Some e ->
             exists arg, (arg, Some e) ∈ cs).
  { intros s res s' cs e Hrun ->.
    destruct (Find_terminal_calls Consume s) as [r Hr]. rewrite Hr in Hrun.
    injection Hrun as Hres _ <-.
    rewrite notEOF_case in Hres. destruct r as [e'|]; [|discriminate Hres].
    destruct (errors_Is e' io_EOF); [discriminate Hres|].
    injection Hres as ->. exists None. left. }
  induction cursor as [|step rest IH]; intros s res s' cs e Hrun Hres.
  - simpl in Hrun. right. eauto.
  - simpl in Hrun.
    destruct (notEOF (cur_err step)) as [bad|].
    { injection Hrun as <- _ _. injection Hres as <-. left. eauto. }
    destruct (negb (next step)); [right; eauto|].
    destruct (Consume s (Some (current step))) as [s1 [e1|]].
    + injection Hrun as <- _ <-. injection Hres as <-. right.
      exists (Some (current step)). left.
    + destruct (Find_loop Consume rest s1) as [[res1 s2] cs1] eqn:Hrest.
      injection Hrun as <- _ <-.
      destruct (IH s1 res1 s2 cs1 e Hrest Hres) as [Hw|[arg Hin]]; [left; exact Hw|].
      right. exists arg. right. exact Hin.
Qed.

(** X3. An error returned by [Find] or by [FindOne] is NotFound, the
    transaction error, an Internal error that wraps a failure of the
    driver, or an error that the consumer itself returned from one of the
    calls made: no failure of the driver reaches the caller unclassified. *)
Theorem Find_error_origin (e : error) :
  (forall resp s,
      result (Find Consume resp s) = Some e ->
      e = ErrNotFound \/ e = ErrTransaction \/ (exists cause, e = ErrInternalBy cause)
      \/ (exists arg, (arg, Some e) ∈ calls (Find Consume resp s)))
  /\ (forall resp s,
         result (FindOne Consume resp s) = Some e ->
         e = ErrNotFound \/ e = ErrTransaction \/ (exists cause, e = ErrInternalBy cause)
         \/ (exists arg, (arg, Some e) ∈ calls (FindOne Consume resp s))).
Proof.
  assert (Hwrap : forall cause : error,
             e = wrapError cause ->
             e = ErrTransaction \/ (exists cause', e = ErrInternalBy cause')).
  { intros cause ->. destruct (wrapError_cases cause) as [->| ->]; eauto. }
  split.
  - intros [err|cursor] s; unfold Find.
    + destruct (errors_Is err mongo_ErrNilDocument || errors_Is err mongo_ErrNoDocuments);
        simpl; intros [= <-]; [auto|].
      right. destruct (wrapError_cases err) as [->| ->]; eauto.
    + destruct (Find_loop Consume cursor s) as [[res s'] cs] eqn:Hrun. simpl.
      intros Hres.
      destruct (Find_loop_error_origin cursor s res s' cs e Hrun Hres) as [[c Hc]|Hin].
      * right. destruct (Hwrap c Hc); auto.
      * auto.
  - intros [err|raw] s; unfold FindOne.
    + destruct (errors_Is err mongo_ErrNilDocument || errors_Is err mongo_ErrNoDocuments);
        simpl; intros [= <-]; [auto|].
      right. destruct (wrapError_cases err) as [->| ->]; eauto.
    + destruct (Consume s (Some raw)) as [s' r]. simpl. intros Hres.
      rewrite notEOF_case in Hres. destruct r as [e'|]; [|discriminate Hres].
      destruct (errors_Is e' io_EOF); [discriminate Hres|].
      injection Hres as ->. do 3 right. exists (Some raw). left.
Qed.

End FindRuns.

(** X2 on a cursor that delivers one document and then breaks, with a
    consumer that takes the document. *)
Lemma Find_cursor_error_witness :
  Mongox.result
    (Mongox.Find (Mongox.collect 5)
       (Mongox.FindCursor [Mongox.doc Mongox.row1; Mongox.broken]) [])
  = Some (ErrInternalBy (DriverError false "connection reset"))
  /\ Mongox.calls
       (Mongox.Find (Mongox.collect 5)
          (Mongox.FindCursor [Mongox.doc Mongox.row1; Mongox.broken]) [])
     = [(Some Mongox.row1, None)].
Proof.
  destruct (Find_cursor_error (Mongox.collect 5) [Mongox.doc Mongox.row1] Mongox.broken []
              (DriverError false "connection reset") [])
    as (_ & _ & Hall).
  - constructor; [split; reflexivity|constructor].
  - reflexivity.
  - reflexivity.
  - apply Hall. intros d r Hin. vm_compute in Hin.
    apply list_elem_of_singleton in Hin. congruence.
Defined.

(** X1 on a cursor with two documents: the first of the three calls made
    carried a document and returned nil. *)
Lemma Find_calls_shape_witness :
  exists d, (Some Mongox.row1, None : option error) = (Some d, None).
Proof.
  apply (Find_calls_shape (Mongox.collect 5)
           (Mongox.FindCursor [Mongox.doc Mongox.row1; Mongox.doc Mongox.row2]) []
           [] (Some Mongox.row1, None)
           [(Some Mongox.row2, None); (None, Some io_EOF)]).
  - reflexivity.
  - discriminate.
Defined.

Section WriteFacts.

Import Mongox.

(** X4 on two identifiers and two replacements. *)
Lemma SaveAll_submits_one_batch_witness :
  submitted (SaveAll idle ["a"; "b"] ["u1"; "u2"]).1
  = [] ++ [zip_with
             (fun id u => {| Filter := [(idKey, id)]; Replacement := u; Upsert := true |})
             ["a"; "b"] ["u1"; "u2"]]
  /\ (SaveAll idle ["a"; "b"] ["u1"; "u2"]).2 = Returned None.
Proof.
  apply (SaveAll_submits_one_batch idle ["a"; "b"] ["u1"; "u2"]).
  - discriminate.
  - reflexivity.
Defined.

(** X5. [SaveAll] never panics: the index [ids[i]] of line 147 is only
    reached when the two lengths agree.  Whatever it is given, it submits
    at most one batch and keeps the batches the driver had seen. *)
Theorem SaveAll_never_panics {Doc : Type} (d : Driver Doc) (ids : list string)
  (updates : list Doc) :
  (SaveAll d ids updates).2 <> Panicked
  /\ (submitted (SaveAll d ids updates).1 = submitted d
      \/ exists batch, submitted (SaveAll d ids updates).1 = submitted d ++ [batch]).
Proof.
  unfold SaveAll.
  destruct ((length ids =? 0)%nat || (length updates =? 0)%nat);
    [simpl; split; [discriminate|auto]|].
  destruct (length ids =? length updates)%nat eqn:Hlen; simpl;
    [|split; [discriminate|auto]].
  apply Nat.eqb_eq in Hlen.
  pose proof (writeModels_zip ids updates [] [] Hlen) as Hw. simpl in Hw.
  rewrite Hw.
  destruct (BulkWrite d _); simpl; (split; [discriminate|eauto]).
Qed.

Lemma updateModels_map {Any : Type} (updates : list (Update.t Any)) :
  forall acc, updateModels updates acc = acc ++ map updateManyModel updates.
Proof.
  induction updates as [|w updates IH]; intros acc; simpl.
  - rewrite app_nil_r. reflexivity.
  - rewrite IH, <- app_assoc. reflexivity.
Qed.

(** X6. [UpdateManyMany] submits exactly one batch, also when [updates] is
    empty (unlike [SaveAll], it has no early return).  The batch has one
    model per update, in order; the model at index [i] has the filter of
    update [i], the update document [{$set: update}], and array filters
    exactly when update [i] has at least one, in which case they are the
    ones of the update. *)
Theorem UpdateManyMany_batch {Any : Type} (d : UpdateDriver Any)
  (updates : list (Update.t Any)) :
  exists batch,
    update_submitted (UpdateManyMany d updates).1 = update_submitted d ++ [batch]
    /\ length batch = length updates
    /\ (forall i w,
          updates !! i = Some w ->
          exists m,
            batch !! i = Some m
            /\ UpdateManyModel.Filter m = Update.Filter w
            /\ UpdateManyModel.Update m = ("$set", Update.Update w)
            /\ UpdateManyModel.ArrayFilters m
               = match Update.ArrayFilters w with
                 | [] => None
                 | fs => Some fs
                 end)
    /\ (UpdateManyMany d updates).2
       = match UpdateBulkWrite d batch with
         | Some err => Some (wrapError err)
         | None => None
         end.
Proof.
  exists (map updateManyModel updates).
  unfold UpdateManyMany. rewrite updateModels_map. simpl.
  split; [destruct (UpdateBulkWrite d _); reflexivity|].
  split; [apply length_map|]. split.
  - intros i w Hw. exists (updateManyModel w). split.
    + rewrite list_lookup_fmap, Hw. reflexivity.
    + unfold updateManyModel.
      destruct (Update.ArrayFilters w) as [|f fs]; simpl; auto.
  - destruct (UpdateBulkWrite d _); reflexivity.
Qed.

(** X7. [RemoveOne] fails with NotFound exactly when the driver reports no
    error and a result whose count of deleted documents is zero; a nil
    result without an error is a success.  On the same answer of the driver
    [RemoveAll] succeeds: it never fails with NotFound, and neither does
    [Count], which returns the count zero next to every error. *)
Theorem RemoveOne_NotFound (res : option DeleteResult) (err : option error) (count : Z) :
  (RemoveOne (res, err) = Some ErrNotFound
   <-> err = None /\ exists r, res = Some r /\ DeletedCount r = 0%Z)
  /\ (RemoveOne (res, err) = None
      <-> err = None /\ forall r, res = Some r -> DeletedCount r <> 0%Z)
  /\ RemoveAll (res, err) <> Some ErrNotFound
  /\ (RemoveAll (res, err) = None <-> err = None)
  /\ (Count (count, err)).2 <> Some ErrNotFound
  /\ ((Count (count, err)).2 <> None -> (Count (count, err)).1 = 0%Z).
Proof.
  assert (Hw : forall e, wrapError e <> ErrNotFound).
  { intros e. destruct (wrapError_cases e) as [->| ->]; discriminate. }
  unfold RemoveOne, RemoveAll, Count.
  destruct err as [e|]; simpl.
  - split; [split; [intros [= Heq]; destruct (Hw e Heq)|intros [[=] _]]|].
    split; [split; [intros [=]|intros [[=] _]]|].
    split; [intros [= Heq]; exact (Hw e Heq)|].
    split; [split; intros [=]|].
    split; [intros [= Heq]; exact (Hw e Heq)|reflexivity].
  - assert (Hone : (match res with
                    | Some res' => if (DeletedCount res' =? 0)%Z then Some ErrNotFound else None
                    | None => None
                    end = Some ErrNotFound
                    <-> None = @None error /\ exists r, res = Some r /\ DeletedCount r = 0%Z)
                   /\ (match res with
                       | Some res' => if (DeletedCount res' =? 0)%Z then Some ErrNotFound else None
                       | None => None
                       end = None
                       <-> None = @None error /\ forall r, res = Some r -> DeletedCount r <> 0%Z)).
    { destruct res as [r|].
      - destruct (Z.eqb_spec (DeletedCount r) 0) as [Hz|Hz]; split; split.
        + eauto.
        + reflexivity.
        + discriminate.
        + intros [_ Hr]. destruct (Hr r eq_refl Hz).
        + discriminate.
        + intros (_ & r' & [= <-] & Hr). contradiction.
        + intros _. split; [reflexivity|]. intros r' [= <-]. exact Hz.
        + reflexivity.
      - split; split.
        + discriminate.
        + intros (_ & r & [=] & _).
        + intros _. split; [reflexivity|]. intros r [=].
        + reflexivity. }
    destruct Hone as [H1 H2].
    split; [exact H1|]. split; [exact H2|].
    split; [discriminate|]. split; [split; reflexivity|].
    split; [discriminate|]. intros Hx. destruct Hx. reflexivity.
Qed.

End WriteFacts.

(* ===================================================================== *)
(** ** Further properties of the in-memory user repository *)
(* ===================================================================== *)

Section SyncMapScans.

Import Accountmemory.

Context {K : Type} `{Countable K} {V : Type}.

(** A scan for one key finds what the map holds under it. *)
Lemma SyncMap_Find_key (v : K) (m : gmap K V) :
  SyncMap_Find (fun key _ => bool_decide (key = v)) m = m !! v.
Proof.
  destruct (SyncMap_Find _ m) as [x|] eqn:E.
  - apply SyncMap_Find_Some in E as (k & Hk & Hf).
    apply bool_decide_eq_true_1 in Hf. subst k. symmetry. exact Hk.
  - rewrite SyncMap_Find_None in E.
    destruct (m !! v) as [x|] eqn:Hv; [|reflexivity].
    specialize (E v x Hv). simpl in E.
    rewrite bool_decide_eq_true_2 in E by reflexivity. discriminate E.
Qed.

(** The values a filtering scan returns are the stored values that the
    predicate accepts. *)
Lemma SyncMap_FindAll_elem (f : K -> V -> bool) (m : gmap K V) (x : V) :
  x ∈ SyncMap_FindAll f m <-> exists k, m !! k = Some x /\ f k x = true.
Proof.
  unfold SyncMap_FindAll. rewrite list_elem_of_fmap. split.
  - intros [[k y] [-> Hin]]. simpl.
    apply list_elem_of_In, filter_In in Hin as [Hin Hf].
    apply list_elem_of_In, elem_of_map_to_list in Hin. eauto.
  - intros (k & Hk & Hf). exists (k, x). split; [reflexivity|].
    apply list_elem_of_In, filter_In. split; [|exact Hf].
    apply list_elem_of_In, elem_of_map_to_list. exact Hk.
Qed.

End SyncMapScans.

Section RepoMore.

Import Accountmemory.

Context `{Domain}.

Lemma FindByID_data (r : Repo) (v : UserID) :
  err r = None -> FindByID r v = ErrIfNil (data r !! v) ErrNotFound.
Proof.
  intros Herr. unfold FindByID, byID. rewrite Herr, SyncMap_Find_key. reflexivity.
Qed.

(** X8. Once a fault is injected, every method of the repository returns
    the fault with no value, and those that write leave the repository as
    it was. *)
Theorem fault_short_circuits (r : Repo) (e : error) (u : User) (s : string)
  (v : UserID) (ids : list UserID) (l : Lookup) :
  err r = Some e ->
  FindByIDs r ids = ([], Some e)
  /\ FindByID r v = (None, Some e)
  /\ lookup_call l r s = (None, Some e)
  /\ FindBySubOrCreate r u s = (r, (None, Some e))
  /\ Create r u = (r, Some e)
  /\ Save r u = (r, Some e)
  /\ Remove r v = (r, Some e).
Proof.
  intros Herr.
  unfold FindByIDs, FindByID, FindBySubOrCreate, Create, Save, Remove.
  rewrite Herr. repeat split.
  destruct l; simpl;
    unfold FindBySub, FindByEmail, FindByName, FindByNameOrEmail,
      FindByVerification, FindByPasswordResetRequest;
    rewrite Herr; reflexivity.
Qed.

(** X9. With no fault injected, [FindByID] returns the user stored under
    the identifier, with a nil error, and fails with NotFound exactly when
    nothing is stored under it. *)
Theorem FindByID_lookup (r : Repo) (v : UserID) :
  err r = None ->
  FindByID r v = match data r !! v with
                 | Some u => (Some u, None)
                 | None => (None, Some ErrNotFound)
                 end.
Proof.
  intros Herr. rewrite (FindByID_data r v Herr).
  destruct (data r !! v); reflexivity.
Qed.

(** X10. With no fault injected and nothing stored under the identifier of
    [u], [Create] returns nil, after which [FindByID] finds [u], the other
    entries are as before, and creating any user with the same identifier
    fails with [ErrDuplicatedUser] and changes nothing. *)
Theorem Create_fresh (r : Repo) (u : User) :
  err r = None ->
  data r !! ID u = None ->
  let r1 := (Create r u).1 in
  (Create r u).2 = None
  /\ FindByID r1 (ID u) = (Some u, None)
  /\ (forall k, k <> ID u -> data r1 !! k = data r !! k)
  /\ (forall u', ID u' = ID u -> Create r1 u' = (r1, Some ErrDuplicatedUser)).
Proof.
  intros Herr Hfree r1.
  assert (Hrun : Create r u = ({| data := <[ID u := u]> (data r); err := None |}, None)).
  { unfold Create, SyncMap_Load, SyncMap_Store. rewrite Herr, Hfree. reflexivity. }
  subst r1. rewrite Hrun. simpl. split; [reflexivity|]. split.
  - rewrite FindByID_data by reflexivity. simpl.
    rewrite lookup_insert_eq. reflexivity.
  - split.
    + intros k Hk. apply lookup_insert_ne. congruence.
    + intros u' Hid. unfold Create, SyncMap_Load. simpl.
      rewrite Hid, lookup_insert_eq. reflexivity.
Qed.

(** X11. [Create] never replaces or drops an entry: whatever is stored
    under an identifier before the call is stored under it afterwards. *)
Theorem Create_keeps_entries (r : Repo) (u : User) (k : UserID) (v : User) :
  data r !! k = Some v -> data (Create r u).1 !! k = Some v.
Proof.
  intros Hk. unfold Create, SyncMap_Load, SyncMap_Store.
  destruct (err r); [exact Hk|].
  destruct (data r !! ID u) as [w|] eqn:Hu; simpl; [exact Hk|].
  rewrite lookup_insert_ne; [exact Hk|]. intros <-. congruence.
Qed.

(** X12. With no fault injected, [Remove] returns nil whether or not the
    identifier is present; afterwards [FindByID] fails with NotFound for
    it, the other entries are as before, and removing an identifier that
    is absent changes nothing. *)
Theorem Remove_then_FindByID (r : Repo) (k : UserID) :
  err r = None ->
  (Remove r k).2 = None
  /\ FindByID (Remove r k).1 k = (None, Some ErrNotFound)
  /\ (forall k', k' <> k -> data (Remove r k).1 !! k' = data r !! k')
  /\ (data r !! k = None -> data (Remove r k).1 = data r).
Proof.
  intros Herr. unfold Remove, SyncMap_Delete. rewrite Herr. simpl.
  split; [reflexivity|]. split.
  - rewrite FindByID_data by reflexivity. simpl.
    rewrite lookup_delete_eq. reflexivity.
  - split.
    + intros k' Hk'. apply lookup_delete_ne. congruence.
    + intros Habs. apply delete_id. exact Habs.
Qed.

(** X13. With no fault injected, [Save] makes its user the one that
    [FindByID] finds, and of two saves under one identifier only the last
    one counts: saving [u] and then [u'] leaves the repository as saving
    [u'] alone does.  In particular saving twice is saving once. *)
Theorem Save_last_wins (r : Repo) (u u' : User) :
  err r = None ->
  ID u' = ID u ->
  FindByID (Save r u).1 (ID u) = (Some u, None)
  /\ Save (Save r u).1 u' = Save r u'
  /\ Save (Save r u).1 u = Save r u.
Proof.
  intros Herr Hid. unfold Save, SyncMap_Store. rewrite Herr. simpl.
  split; [|split].
  - rewrite FindByID_data by reflexivity. simpl.
    rewrite lookup_insert_eq. reflexivity.
  - rewrite Hid, insert_insert_eq. reflexivity.
  - rewrite insert_insert_eq. reflexivity.
Qed.

Lemma keyed_insert (m : gmap UserID User) (u : User) (e : option error) :
  keyed {| data := m; err := e |} -> keyed {| data := <[ID u := u]> m; err := e |}.
Proof.
  intros Hk k v Hkv. simpl in Hkv.
  apply lookup_insert_Some in Hkv as [[<- <-]|[_ Hkv]]; [reflexivity|].
  exact (Hk k v Hkv).
Qed.

Lemma keyed_data (r r' : Repo) : data r' = data r -> keyed r -> keyed r'.
Proof. intros Heq Hk k v Hkv. rewrite Heq in Hkv. exact (Hk k v Hkv). Qed.

Lemma keyed_fold (users : list User) :
  forall m e,
    keyed {| data := m; err := e |} ->
    keyed {| data := fold_left (fun m u => SyncMap_Store (ID u) u m) users m; err := e |}.
Proof.
  induction users as [|u users IH]; intros m e Hk; simpl; [exact Hk|].
  apply IH. unfold SyncMap_Store. apply keyed_insert. exact Hk.
Qed.

(** X14. Every user is stored under its own identifier: this holds of the
    repositories that [NewUser] and [NewUserWith] build, and [Create],
    [Save], [Remove], [FindBySubOrCreate] and [SetUserError] keep it.  So
    a user that [FindByID] returns has the identifier asked for. *)
Theorem keyed_invariant :
  keyed NewUser
  /\ (forall users, keyed (NewUserWith users))
  /\ (forall r, keyed r ->
        (forall u, keyed (Create r u).1)
        /\ (forall u, keyed (Save r u).1)
        /\ (forall k, keyed (Remove r k).1)
        /\ (forall u sub, keyed (FindBySubOrCreate r u sub).1)
        /\ (forall e, keyed (SetUserError r e))
        /\ (forall v u e, FindByID r v = (Some u, e) -> ID u = v)).
Proof.
  assert (Hempty : forall e, keyed {| data := ∅; err := e |}).
  { intros e k v Hkv. simpl in Hkv. rewrite lookup_empty in Hkv. discriminate Hkv. }
  split; [apply Hempty|]. split.
  { intros users. unfold NewUserWith. apply keyed_fold, Hempty. }
  intros r Hk.
  assert (Hins : forall u, keyed {| data := <[ID u := u]> (data r); err := err r |}).
  { intros u. apply keyed_insert. intros k v Hkv. exact (Hk k v Hkv). }
  repeat split.
  - intros u. unfold Create, SyncMap_Load, SyncMap_Store.
    destruct (err r) eqn:Herr; [exact Hk|].
    destruct (data r !! ID u); simpl; [exact Hk|].
    exact (Hins u).
  - intros u. unfold Save, SyncMap_Store.
    destruct (err r) eqn:Herr; [exact Hk|]. simpl.
    exact (Hins u).
  - intros k. unfold Remove, SyncMap_Delete.
    destruct (err r); [exact Hk|]. simpl.
    intros k' v Hkv. simpl in Hkv.
    apply lookup_delete_Some in Hkv as [_ Hkv]. exact (Hk k' v Hkv).
  - intros u sub. unfold FindBySubOrCreate, SyncMap_Store.
    destruct (err r) eqn:Herr; [exact Hk|].
    destruct (SyncMap_Find _ (data r)); simpl; [exact Hk|].
    exact (Hins u).
  - intros e. apply (keyed_data r); [reflexivity|exact Hk].
  - intros v u e Hfind. unfold FindByID in Hfind.
    destruct (err r); [discriminate Hfind|].
    unfold byID in Hfind. rewrite SyncMap_Find_key in Hfind.
    destruct (data r !! v) as [w|] eqn:Hv; simpl in Hfind; [|discriminate Hfind].
    injection Hfind as <- _. exact (Hk v w Hv).
Qed.

Lemma fold_Store_lookup (users : list User) (k : UserID) :
  forall m : gmap UserID User,
    fold_left (fun m u => SyncMap_Store (ID u) u m) users m !! k
    = match last_with_ID k users with
      | Some u => Some u
      | None => m !! k
      end.
Proof.
  unfold last_with_ID.
  induction users as [|u users IH]; intros m; simpl; [reflexivity|].
  rewrite IH. unfold SyncMap_Store.
  assert (Hfind : forall l : list User,
             List.find (fun u0 => bool_decide (ID u0 = k)) (l ++ [u])
             = match List.find (fun u0 => bool_decide (ID u0 = k)) l with
               | Some x => Some x
               | None => if bool_decide (ID u = k) then Some u else None
               end).
  { induction l as [|x l IHl]; simpl; [reflexivity|].
    destruct (bool_decide (ID x = k)); [reflexivity|exact IHl]. }
  rewrite Hfind.
  destruct (List.find _ (rev users)); [reflexivity|].
  destruct (bool_decide_reflect (ID u = k)) as [<-|Hne].
  - apply lookup_insert_eq.
  - apply lookup_insert_ne. exact Hne.
Qed.

(** X15. [NewUserWith] stores each user under its identifier, and when
    several users of the list share an identifier the last of them stays:
    [FindByID] returns, for every identifier, the last user of the list
    that has it, and fails with NotFound when no user of the list has it. *)
Theorem NewUserWith_lookup (users : list User) (k : UserID) :
  data (NewUserWith users) !! k = last_with_ID k users
  /\ FindByID (NewUserWith users) k = ErrIfNil (last_with_ID k users) ErrNotFound.
Proof.
  assert (Hdata : data (NewUserWith users) !! k = last_with_ID k users).
  { unfold NewUserWith. simpl. rewrite fold_Store_lookup, lookup_empty.
    destruct (last_with_ID k users); reflexivity. }
  split; [exact Hdata|].
  rewrite FindByID_data by reflexivity. rewrite Hdata. reflexivity.
Qed.

End RepoMore.

Section RepoLookups.

Import Accountmemory.

Context `{Domain}.

(** Each lookup by attribute is the fault test, the test for the empty
    string, and the scan with the closure of the lookup. *)
Lemma lookup_call_unfold (l : Lookup) (r : Repo) (s : string) :
  lookup_call l r s
  = match err r with
    | Some e => (None, Some e)
    | None =>
        if bool_decide (s = EmptyString) then (None, Some ErrInvalidParams)
        else ErrIfNil (SyncMap_Find (lookup_pred l s) (data r)) ErrNotFound
    end.
Proof. destruct l; reflexivity. Qed.

(** X16. A user that one of the six lookups by attribute returns is a
    stored user that the closure of the lookup accepts, and it comes with a
    nil error: such a lookup never returns a user together with an error,
    never returns a user for the empty argument, and never makes one up. *)
Theorem lookup_sound (l : Lookup) (r : Repo) (s : string) (u : User)
  (e : option error) :
  lookup_call l r s = (Some u, e) ->
  e = None
  /\ err r = None
  /\ s <> EmptyString
  /\ exists k, data r !! k = Some u /\ lookup_pred l s k u = true.
Proof.
  rewrite lookup_call_unfold. intros Hcall.
  destruct (err r); [discriminate Hcall|].
  destruct (bool_decide_reflect (s = EmptyString)) as [Hs|Hs]; [discriminate Hcall|].
  destruct (SyncMap_Find (lookup_pred l s) (data r)) as [w|] eqn:Hfind;
    simpl in Hcall; [|discriminate Hcall].
  injection Hcall as -> <-.
  apply SyncMap_Find_Some in Hfind. auto.
Qed.

(** X17. With no fault injected and a non-empty argument, a lookup by
    attribute succeeds as soon as one stored user is accepted by its
    closure: it returns a stored user that the closure accepts, with a nil
    error.  When a single stored user is accepted, that user is the one
    returned. *)
Theorem lookup_complete (l : Lookup) (r : Repo) (s : string) (k : UserID) (v : User) :
  err r = None ->
  s <> EmptyString ->
  data r !! k = Some v ->
  lookup_pred l s k v = true ->
  (exists k' u,
      lookup_call l r s = (Some u, None)
      /\ data r !! k' = Some u
      /\ lookup_pred l s k' u = true)
  /\ ((forall k' u, data r !! k' = Some u -> lookup_pred l s k' u = true -> u = v) ->
      lookup_call l r s = (Some v, None)).
Proof.
  intros Herr Hs Hk Hp. rewrite lookup_call_unfold, Herr.
  rewrite (bool_decide_eq_false_2 _ Hs).
  destruct (SyncMap_Find (lookup_pred l s) (data r)) as [w|] eqn:Hfind.
  - apply SyncMap_Find_Some in Hfind as (k' & Hk' & Hp'). simpl. split.
    + exists k', w. auto.
    + intros Huniq. rewrite (Huniq k' w Hk' Hp'). reflexivity.
  - rewrite SyncMap_Find_None in Hfind.
    rewrite (Hfind k v Hk) in Hp. discriminate Hp.
Qed.

(** X18. With no fault injected, [FindByIDs] returns a nil error and the
    users stored under the identifiers of the list, and no other: an
    identifier with nothing stored under it is passed over, and is no
    NotFound. *)
Theorem FindByIDs_members (r : Repo) (ids : list UserID) :
  err r = None ->
  (FindByIDs r ids).2 = None
  /\ (forall u, u ∈ (FindByIDs r ids).1 <-> exists k, k ∈ ids /\ data r !! k = Some u)
  /\ ((forall k, k ∈ ids -> data r !! k = None) -> (FindByIDs r ids).1 = []).
Proof.
  intros Herr. unfold FindByIDs. rewrite Herr. simpl.
  assert (Hmem : forall u,
             u ∈ SyncMap_FindAll (fun key _ => bool_decide (key ∈ ids)) (data r)
             <-> exists k, k ∈ ids /\ data r !! k = Some u).
  { intros u. rewrite SyncMap_FindAll_elem. split.
    - intros (k & Hk & Hin). apply bool_decide_eq_true_1 in Hin. eauto.
    - intros (k & Hin & Hk). exists k. split; [exact Hk|].
      apply bool_decide_eq_true_2. exact Hin. }
  split; [reflexivity|]. split; [exact Hmem|].
  intros Habsent.
  destruct (SyncMap_FindAll _ (data r)) as [|u us] eqn:E; [reflexivity|].
  assert (Hu : u ∈ u :: us) by left.
  apply Hmem in Hu as (k & Hin & Hk).
  rewrite (Habsent k Hin) in Hk. discriminate Hk.
Qed.

(** X19. With no fault injected, when some stored user's auths contain
    [sub], [FindBySubOrCreate] returns a stored user whose auths contain
    [sub], with a nil error, and leaves the repository as it was: the
    candidate is not stored, whatever it is. *)
Theorem FindBySubOrCreate_existing (r : Repo) (u : User) (sub : string)
  (k : UserID) (v : User) :
  err r = None ->
  data r !! k = Some v ->
  ContainAuth v (AuthFrom sub) = true ->
  exists k2 u2,
    FindBySubOrCreate r u sub = (r, (Some u2, None))
    /\ data r !! k2 = Some u2
    /\ ContainAuth u2 (AuthFrom sub) = true.
Proof.
  intros Herr Hk Hv. unfold FindBySubOrCreate. rewrite Herr.
  destruct (SyncMap_Find (bySub sub) (data r)) as [u2|] eqn:Hfind.
  - apply SyncMap_Find_Some in Hfind as (k2 & Hk2 & Hp). exists k2, u2. auto.
  - rewrite SyncMap_Find_None in Hfind.
    specialize (Hfind k v Hk). unfold bySub in Hfind.
    rewrite Hv in Hfind. discriminate Hfind.
Qed.

(** X20. [FindBySubOrCreate] stores its candidate without the test that
    [Create] makes: with no fault injected, nobody matching [sub] and
    another user already stored under the identifier of the candidate,
    [Create] fails with [ErrDuplicatedUser] and keeps the stored user,
    whereas [FindBySubOrCreate] returns nil and puts the candidate in its
    place. *)
Theorem FindBySubOrCreate_replaces (r : Repo) (u v : User) (sub : string) :
  err r = None ->
  no_match (bySub sub) r ->
  data r !! ID u = Some v ->
  Create r u = (r, Some ErrDuplicatedUser)
  /\ (FindBySubOrCreate r u sub).2 = (Some u, None)
  /\ data (FindBySubOrCreate r u sub).1 !! ID u = Some u.
Proof.
  intros Herr Hno Hv. split.
  - unfold Create, SyncMap_Load. rewrite Herr, Hv. reflexivity.
  - unfold FindBySubOrCreate, SyncMap_Store.
    rewrite Herr, (no_match_Find _ _ Hno). simpl.
    split; [reflexivity|apply lookup_insert_eq].
Qed.

End RepoLookups.

Section RepoMoreExamples.

Import Accountmemory.

#[local] Existing Instance sample_domain.

Lemma alice_repo_only (k : string) (u : SampleUser) :
  data alice_repo !! k = Some u -> k = "01" /\ u = alice.
Proof.
  rewrite alice_repo_data. intros Hk.
  apply lookup_singleton_Some in Hk as [<- <-]. auto.
Qed.

(** X8 on the repository that holds [alice], after a fault was injected. *)
Lemma fault_short_circuits_witness :
  FindByID faulty_repo "01" = (None, Some fault)
  /\ Create faulty_repo carol = (faulty_repo, Some fault)
  /\ Remove faulty_repo "01" = (faulty_repo, Some fault).
Proof.
  destruct (fault_short_circuits faulty_repo fault carol "sub-123" "01" ["01"] BySub)
    as (_ & Hfind & _ & _ & Hcreate & _ & Hremove).
  - reflexivity.
  - auto.
Defined.

(** X9 on the identifier of [alice] and on one that is not stored. *)
Lemma FindByID_lookup_witness :
  FindByID alice_repo "01" = (Some alice, None)
  /\ FindByID alice_repo "09" = (None, Some ErrNotFound).
Proof.
  split.
  - rewrite (FindByID_lookup alice_repo "01"); reflexivity.
  - rewrite (FindByID_lookup alice_repo "09"); reflexivity.
Defined.

(** X10 on [carol], whose identifier the repository does not hold. *)
Lemma Create_fresh_witness :
  (Create alice_repo carol).2 = None
  /\ FindByID (Create alice_repo carol).1 "03" = (Some carol, None)
  /\ Create (Create alice_repo carol).1 carol
     = ((Create alice_repo carol).1, Some ErrDuplicatedUser).
Proof.
  destruct (Create_fresh alice_repo carol) as (Hnil & Hfind & _ & Hdup).
  - reflexivity.
  - reflexivity.
  - split; [exact Hnil|]. split; [exact Hfind|]. apply Hdup. reflexivity.
Defined.

(** X11: creating a second record under the identifier of [alice] keeps
    [alice]. *)
Lemma Create_keeps_entries_witness :
  data (Create alice_repo alice2).1 !! "01" = Some alice.
Proof.
  apply (Create_keeps_entries alice_repo alice2 "01" alice). reflexivity.
Defined.

(** X12 on the identifier of [alice]. *)
Lemma Remove_then_FindByID_witness :
  (Remove alice_repo "01").2 = None
  /\ FindByID (Remove alice_repo "01").1 "01" = (None, Some ErrNotFound).
Proof.
  destruct (Remove_then_FindByID alice_repo "01") as (Hnil & Hfind & _).
  - reflexivity.
  - auto.
Defined.

(** X13 on two records under the identifier of [alice]. *)
Lemma Save_last_wins_witness :
  FindByID (Save alice_repo alice).1 "01" = (Some alice, None)
  /\ Save (Save alice_repo alice).1 alice2 = Save alice_repo alice2.
Proof.
  destruct (Save_last_wins alice_repo alice alice2) as (Hfind & Hlast & _).
  - reflexivity.
  - reflexivity.
  - auto.
Defined.

(** X16 on the lookup of [alice] by her email. *)
Lemma lookup_sound_witness :
  exists k, data alice_repo !! k = Some alice
            /\ lookup_pred ByEmail "alice@example.com" k alice = true.
Proof.
  apply (lookup_sound ByEmail alice_repo "alice@example.com" alice None).
  reflexivity.
Defined.

(** X17 on the lookup of [alice] by her name. *)
Lemma lookup_complete_witness :
  lookup_call ByName alice_repo "alice" = (Some alice, None).
Proof.
  destruct (lookup_complete ByName alice_repo "alice" "01" alice) as [_ Huniq].
  - reflexivity.
  - discriminate.
  - reflexivity.
  - reflexivity.
  - apply Huniq. intros k' u Hk' _. apply alice_repo_only in Hk' as [_ ->]. reflexivity.
Defined.

(** X18 on an identifier that is stored and one that is not. *)
Lemma FindByIDs_members_witness :
  (FindByIDs alice_repo ["01"; "09"]).2 = None
  /\ alice ∈ (FindByIDs alice_repo ["01"; "09"]).1
  /\ (FindByIDs alice_repo ["09"]).1 = [].
Proof.
  destruct (FindByIDs_members alice_repo ["01"; "09"]) as (Hnil & Hmem & _);
    [reflexivity|].
  destruct (FindByIDs_members alice_repo ["09"]) as (_ & _ & Hnone);
    [reflexivity|].
  split; [exact Hnil|]. split.
  - apply Hmem. exists "01". split; [left|reflexivity].
  - apply Hnone. intros k Hk. apply list_elem_of_singleton in Hk as ->. reflexivity.
Defined.

(** X19: [alice] holds "sub-123", so [carol] is not stored. *)
Lemma FindBySubOrCreate_existing_witness :
  exists k2 u2,
    FindBySubOrCreate alice_repo carol "sub-123" = (alice_repo, (Some u2, None))
    /\ data alice_repo !! k2 = Some u2
    /\ ContainAuth u2 (AuthFrom "sub-123") = true.
Proof.
  apply (FindBySubOrCreate_existing alice_repo carol "sub-123" "01" alice);
    reflexivity.
Defined.

(** X20: a second record under the identifier of [alice], looked up by a
    sub that nobody holds. *)
Lemma FindBySubOrCreate_replaces_witness :
  Create alice_repo alice2 = (alice_repo, Some ErrDuplicatedUser)
  /\ (FindBySubOrCreate alice_repo alice2 "sub-999").2 = (Some alice2, None)
  /\ data (FindBySubOrCreate alice_repo alice2 "sub-999").1 !! ID alice2 = Some alice2.
Proof.
  apply (FindBySubOrCreate_replaces alice_repo alice2 alice "sub-999").
  - reflexivity.
  - apply alice_repo_no_match. reflexivity.
  - reflexivity.
Defined.

End RepoMoreExamples.

(* ===================================================================== *)
(** ** Further properties of the pagination model *)
(* ===================================================================== *)

Section WrapMore.

Import Usecasex.

(** The heap that [CursorPagination.Wrap] leaves: one new descriptor cell
    holding the receiver, one new [Pagination] pointing to it. *)
Lemma CursorPagination_Wrap_spec (h : Heap) (d : CursorPagination.t) :
  exists h' p c,
    CursorPagination_Wrap h d = (h', p)
    /\ paginations h !! p = None
    /\ cursorPaginations h !! c = None
    /\ paginations h'
       = <[p := {| Pagination.Cursor := Some c; Pagination.Offset := None |}]> (paginations h)
    /\ cursorPaginations h' = <[c := d]> (cursorPaginations h)
    /\ offsetPaginations h' = offsetPaginations h.
Proof.
  unfold CursorPagination_Wrap.
  pose proof (alloc_fresh (cursorPaginations h) d) as Hc.
  destruct (alloc (cursorPaginations h) d) as [cps c] eqn:Ec.
  pose proof (alloc_fresh (paginations h)
                {| Pagination.Cursor := Some c; Pagination.Offset := None |}) as Hp.
  destruct (alloc (paginations h) _) as [pgs p] eqn:Ep.
  unfold alloc in Ec, Ep. injection Ec as <- <-. injection Ep as <- <-.
  eexists _, _, _. repeat split; [exact Hp|exact Hc].
Qed.

Lemma OffsetPagination_Wrap_spec (h : Heap) (d : OffsetPagination.t) :
  exists h' p o,
    OffsetPagination_Wrap h d = (h', p)
    /\ paginations h !! p = None
    /\ offsetPaginations h !! o = None
    /\ paginations h'
       = <[p := {| Pagination.Cursor := None; Pagination.Offset := Some o |}]> (paginations h)
    /\ offsetPaginations h' = <[o := d]> (offsetPaginations h)
    /\ cursorPaginations h' = cursorPaginations h.
Proof.
  unfold OffsetPagination_Wrap.
  pose proof (alloc_fresh (offsetPaginations h) d) as Ho.
  destruct (alloc (offsetPaginations h) d) as [ops o] eqn:Eo.
  pose proof (alloc_fresh (paginations h)
                {| Pagination.Cursor := None; Pagination.Offset := Some o |}) as Hp.
  destruct (alloc (paginations h) _) as [pgs p] eqn:Ep.
  unfold alloc in Eo, Ep. injection Eo as <- <-. injection Ep as <- <-.
  eexists _, _, _. repeat split; [exact Hp|exact Ho].
Qed.

(** Reading through [q] is not changed by new cells at addresses that were
    not in use. *)
Lemma deref_grow (h h' : Heap) (q : loc) :
  is_Some (deref h q) ->
  (forall l, is_Some (paginations h !! l) -> paginations h' !! l = paginations h !! l) ->
  (forall l, is_Some (cursorPaginations h !! l) ->
     cursorPaginations h' !! l = cursorPaginations h !! l) ->
  (forall l, is_Some (offsetPaginations h !! l) ->
     offsetPaginations h' !! l = offsetPaginations h !! l) ->
  deref h' q = deref h q.
Proof.
  intros Hq Hp Hc Ho.
  destruct (deref_is_Some h q Hq) as (pg & Hpg & Hvc & Hvo).
  apply (deref_ext h h' q pg Hpg).
  - rewrite Hp by (rewrite Hpg; eauto). exact Hpg.
  - intros l Hl. apply Hc. exact (field_view_valid _ _ Hvc l Hl).
  - intros l Hl. apply Ho. exact (field_view_valid _ _ Hvo l Hl).
Qed.

Lemma insert_fresh_lookup {T : Type} (m : gmap loc T) (l0 : loc) (x : T) :
  m !! l0 = None -> forall l, is_Some (m !! l) -> <[l0 := x]> m !! l = m !! l.
Proof.
  intros Hfresh l [y Hl]. apply lookup_insert_ne. intros <-.
  rewrite Hfresh in Hl. discriminate Hl.
Qed.

(** X21. [Clone] writes to new cells only: a [Pagination] that could be
    read through some pointer [q] before [p] is cloned reads the same
    afterwards, and the pointer returned is not [q]. *)
Theorem Pagination_Clone_frame (h : Heap) (p q : loc) :
  is_Some (deref h p) ->
  is_Some (deref h q) ->
  exists h' c,
    Pagination_Clone h (Some p) = Some (h', Some c)
    /\ c <> q
    /\ deref h' q = deref h q.
Proof.
  intros Hp Hq.
  destruct (Pagination_Clone_spec h p Hp)
    as (pg & h' & c & pg' & _ & Hclone & Hfresh & Hpgs & Hcold & Hoold & _).
  exists h', c. split; [exact Hclone|]. split.
  - intros ->. destruct (deref_is_Some h q Hq) as (pgq & Hpgq & _).
    rewrite Hpgq in Hfresh. discriminate Hfresh.
  - apply (deref_grow h h' q Hq); [|exact Hcold|exact Hoold].
    rewrite Hpgs. apply insert_fresh_lookup. exact Hfresh.
Qed.

(** X22. The two [Wrap] methods write to new cells only: a [Pagination]
    that could be read through some pointer [q] before reads the same
    after either of them, and the pointer returned is not [q]. *)
Theorem Wrap_frame (h : Heap) (q : loc) :
  is_Some (deref h q) ->
  (forall d : CursorPagination.t,
      (CursorPagination_Wrap h d).2 <> q
      /\ deref (CursorPagination_Wrap h d).1 q = deref h q)
  /\ (forall d : OffsetPagination.t,
         (OffsetPagination_Wrap h d).2 <> q
         /\ deref (OffsetPagination_Wrap h d).1 q = deref h q).
Proof.
  intros Hq. destruct (deref_is_Some h q Hq) as (pgq & Hpgq & _). split.
  - intros d.
    destruct (CursorPagination_Wrap_spec h d)
      as (h' & p & c & -> & Hp & Hc & Hpgs & Hcps & Hops).
    simpl. split.
    + intros ->. rewrite Hpgq in Hp. discriminate Hp.
    + apply (deref_grow h h' q Hq).
      * rewrite Hpgs. apply insert_fresh_lookup. exact Hp.
      * rewrite Hcps. apply insert_fresh_lookup. exact Hc.
      * rewrite Hops. auto.
  - intros d.
    destruct (OffsetPagination_Wrap_spec h d)
      as (h' & p & o & -> & Hp & Ho & Hpgs & Hops & Hcps).
    simpl. split.
    + intros ->. rewrite Hpgq in Hp. discriminate Hp.
    + apply (deref_grow h h' q Hq).
      * rewrite Hpgs. apply insert_fresh_lookup. exact Hp.
      * rewrite Hcps. auto.
      * rewrite Hops. apply insert_fresh_lookup. exact Ho.
Qed.

(** X23. [CursorPagination.Wrap] has a value receiver, so what the new
    [Pagination] points to is a copy of its own: wrapping one descriptor
    twice gives two pointers that read as the descriptor, and after any
    assignment to a field of the descriptor behind the second, the first
    still reads as before. *)
Theorem CursorPagination_Wrap_copies (h : Heap) (d : CursorPagination.t) :
  let (h1, p1) := CursorPagination_Wrap h d in
  let (h2, p2) := CursorPagination_Wrap h1 d in
  p1 <> p2
  /\ deref h2 p1 = Some (Some d, None)
  /\ deref h2 p2 = Some (Some d, None)
  /\ forall a h3, assign h2 p2 a = Some h3 -> deref h3 p1 = Some (Some d, None).
Proof.
  destruct (CursorPagination_Wrap_spec h d)
    as (h1 & p1 & c1 & -> & Hp1 & Hc1 & Hpgs1 & Hcps1 & Hops1).
  destruct (CursorPagination_Wrap_spec h1 d)
    as (h2 & p2 & c2 & -> & Hp2 & Hc2 & Hpgs2 & Hcps2 & Hops2).
  assert (Hl1 : paginations h1 !! p1
                = Some {| Pagination.Cursor := Some c1; Pagination.Offset := None |}).
  { rewrite Hpgs1. apply lookup_insert_eq. }
  assert (Hd1 : cursorPaginations h1 !! c1 = Some d).
  { rewrite Hcps1. apply lookup_insert_eq. }
  assert (Hne : p1 <> p2) by (intros ->; rewrite Hl1 in Hp2; discriminate Hp2).
  assert (Hnc : c1 <> c2) by (intros ->; rewrite Hd1 in Hc2; discriminate Hc2).
  assert (Hl1' : paginations h2 !! p1
                 = Some {| Pagination.Cursor := Some c1; Pagination.Offset := None |}).
  { rewrite Hpgs2, lookup_insert_ne by congruence. exact Hl1. }
  assert (Hl2 : paginations h2 !! p2
                = Some {| Pagination.Cursor := Some c2; Pagination.Offset := None |}).
  { rewrite Hpgs2. apply lookup_insert_eq. }
  assert (Hd1' : cursorPaginations h2 !! c1 = Some d).
  { rewrite Hcps2, lookup_insert_ne by congruence. exact Hd1. }
  assert (Hd2 : cursorPaginations h2 !! c2 = Some d).
  { rewrite Hcps2. apply lookup_insert_eq. }
  assert (Hr1 : deref h2 p1 = Some (Some d, None)).
  { unfold deref. rewrite Hl1'. simpl. rewrite Hd1'. reflexivity. }
  split; [exact Hne|]. split; [exact Hr1|]. split.
  - unfold deref. rewrite Hl2. simpl. rewrite Hd2. reflexivity.
  - intros a h3 Ha.
    destruct (assign_frame h2 h3 p2 a Ha) as (pg2 & Hpg2 & Heq & Hcf & Hof).
    rewrite Hl2 in Hpg2. injection Hpg2 as <-. simpl in Hcf, Hof.
    rewrite <- Hr1.
    apply (deref_ext h2 h3 p1 _ Hl1'); [rewrite Heq; exact Hl1'| |].
    + intros l [= <-]. apply Hcf. congruence.
    + intros l [=].
Qed.

(** X21 on the sample heap, with [q] the pointer that is cloned. *)
Lemma Pagination_Clone_frame_witness :
  exists h' c,
    Pagination_Clone sample_heap (Some sample_ptr) = Some (h', Some c)
    /\ c <> sample_ptr
    /\ deref h' sample_ptr = deref sample_heap sample_ptr.
Proof.
  apply (Pagination_Clone_frame sample_heap sample_ptr sample_ptr);
    exists (Some sample_cursor, None); vm_compute; reflexivity.
Defined.

(** X22 on the sample heap: wrapping an offset descriptor leaves the sample
    [Pagination] as it reads. *)
Lemma Wrap_frame_witness :
  (OffsetPagination_Wrap sample_heap
     {| OffsetPagination.Offset := 0; OffsetPagination.Limit := 10 |}).2 <> sample_ptr
  /\ deref (OffsetPagination_Wrap sample_heap
              {| OffsetPagination.Offset := 0; OffsetPagination.Limit := 10 |}).1 sample_ptr
     = deref sample_heap sample_ptr.
Proof.
  destruct (Wrap_frame sample_heap sample_ptr) as [_ Hoff].
  - exists (Some sample_cursor, None). vm_compute. reflexivity.
  - apply Hoff.
Defined.

End WrapMore.
